(** * Template helpers of ZAP (helper-zap.js): contexts, positional
      helpers, iteration, accumulators and the [after] barrier.

    The helpers are Handlebars helpers: [this] is the rendering context,
    [options.fn] renders the body block in a context and [options.hash]
    holds the named arguments.  A context refers to the render pass's
    [global] object, which is shared and mutated in place, so the
    embedding keeps the global objects in a store and the contexts hold
    locations of that store. *)

From Equations Require Import Equations.
From stdpp Require Import gmap strings list fin_maps.
From Stdlib Require Import ZArith Ascii Lia.

Local Open Scope Z_scope.

(** ** JavaScript values *)

(** The values that reach [index], [count], [value] and [sum].  Numbers
    are the integers, on which the arithmetic of JavaScript numbers is
    exact below 2^53; strings, booleans and fractions are not part of the
    value domain of this development. *)
Inductive jsval : Type :=
  | JUndefined
  | JNull
  | JNum (z : Z).

(** A number that may be NaN ([None]). *)
Definition number : Type := option Z.

(** [ToNumber]: [undefined] is NaN, [null] is 0. *)
Definition ToNumber (v : jsval) : number :=
  match v with
  | JUndefined => None
  | JNull => Some 0
  | JNum z => Some z
  end.

(** [v != null]: loose inequality with [null] holds for everything but
    [null] and [undefined]. *)
Definition not_null (v : jsval) : bool :=
  match v with
  | JUndefined | JNull => false
  | JNum _ => true
  end.

(** [v == n] for a number [n]: [null] and [undefined] are loosely equal
    only to each other, NaN is equal to nothing. *)
Definition loose_eq_number (v : jsval) (n : number) : bool :=
  match v, n with
  | JNum a, Some b => a =? b
  | _, _ => false
  end.

(** [v - k] *)
Definition js_minus (v : jsval) (k : Z) : number :=
  match ToNumber v with
  | Some z => Some (z - k)
  | None => None
  end.

(** [i < v] for a number [i]: a comparison with NaN is false. *)
Definition js_lt (i : Z) (v : jsval) : bool :=
  match ToNumber v with
  | Some z => i <? z
  | None => false
  end.

(** ** Contexts *)

(** Location of a [global] object in the store. *)
Definition loc : Type := nat.

(** The fields of a context that the helpers read or write.  A field
    that is absent reads as [undefined]. *)
#[warnings="-register-all"]
Inductive context : Type :=
  Context {
    global : loc;
    parent : option context;
    index : jsval;
    count : jsval;
    sum : jsval;
    value : jsval
  }.

(** The body block [options.fn]: the text it renders in a context. *)
Definition block : Type := context -> string.

(** What the template engine appends to the output for the result of a
    block helper: nothing when the helper returned no value. *)
Definition rendered (r : option string) : string :=
  match r with
  | Some s => s
  | None => EmptyString
  end.

(** ** Positional helpers

    Each of them returns [options.fn(this)] under its condition and falls
    off the end of the function otherwise, that is, returns [undefined]
    ([None]). *)

Definition first (this : context) (fn : block) : option string :=
  if not_null (index this) && not_null (count this)
     && loose_eq_number (index this) (Some 0)
  then Some (fn this)
  else None.

Definition last (this : context) (fn : block) : option string :=
  if not_null (index this) && not_null (count this)
     && loose_eq_number (index this) (js_minus (count this) 1)
  then Some (fn this)
  else None.

Definition not_last (this : context) (fn : block) : option string :=
  if not_null (index this) && not_null (count this)
     && negb (loose_eq_number (index this) (js_minus (count this) 1))
  then Some (fn this)
  else None.

Definition middle (this : context) (fn : block) : option string :=
  if not_null (index this) && not_null (count this)
     && negb (loose_eq_number (index this) (Some 0))
     && negb (loose_eq_number (index this) (js_minus (count this) 1))
  then Some (fn this)
  else None.

(** ** The store of global objects *)

(** A promise is known by its identity; what [isResolved()] and
    [isRejected()] report about it is given by the schedule of the
    barrier section below. *)
Definition promise : Type := nat.

(** An accumulator register, [{ value: [], sum: [], currentSum: 0 }]. *)
Module Register.

Record t : Type := Make {
  value : list jsval;
  sum : list Z;
  currentSum : Z
}.

Definition empty : t := {| value := []; sum := []; currentSum := 0 |}.

End Register.

(** The [global] object of a render pass.  The [accumulators] table is an
    object used as a map from names to registers, absent ([None]) until
    the first value is recorded; the map holds its own properties. *)
Record global_object : Type := GlobalObject {
  accumulators : option (gmap string Register.t);
  promises : list promise
}.

Abbreviation store := (gmap loc global_object).

(** The result of a helper that dereferences [this.global]: reading a
    property of [undefined] throws a [TypeError]. *)
Inductive result (A : Type) : Type :=
  | Ok (a : A)
  | TypeError.
Arguments Ok {A} a.
Arguments TypeError {A}.

(** ** [iterate] *)

(** Keeps the outcome of a loop test as an equation. *)
Definition inspect {A : Type} (x : A) : { y : A | x = y } := exist _ x eq_refl.

(** The context built in the body of the loop of [iterate]. *)
Definition iterate_newContext (this : context) (cnt : jsval) (i : Z) : context :=
  {| global := global this;
     parent := Some this;
     index := JNum i;
     count := cnt;
     sum := JUndefined;
     value := JUndefined |}.

(** [for (var i = 0; i < hash.count; i++) ret = ret.concat(options.fn(newContext))],
    from the current [i] and [ret]. *)
Equations? iterate_loop (this : context) (cnt : jsval) (fn : block)
    (i : Z) (ret : string) : string
    by wf (Z.to_nat (default 0 (ToNumber cnt) - i)) lt :=
  iterate_loop this cnt fn i ret with inspect (js_lt i cnt) := {
    | exist _ true _ =>
        iterate_loop this cnt fn (i + 1)
          (ret +:+ fn (iterate_newContext this cnt i));
    | exist _ false _ => ret }.
Proof.
  unfold js_lt in e. destruct (ToNumber cnt) as [z|]; [|discriminate].
  simpl. apply Z.ltb_lt in e. lia.
Qed.

Definition iterate (this : context) (hash_count : jsval) (fn : block) : string :=
  iterate_loop this hash_count fn 0 EmptyString.

(** ** Accumulators *)

(** The properties of [Object.prototype], which the table, an object
    written [{}], inherits. *)
Definition Object_prototype : list string :=
  ["constructor"; "toString"; "toLocaleString"; "valueOf"; "hasOwnProperty";
   "isPrototypeOf"; "propertyIsEnumerable"; "__proto__"; "__defineGetter__";
   "__defineSetter__"; "__lookupGetter__"; "__lookupSetter__"].

Definition inherited (name : string) : bool :=
  bool_decide (name ∈ Object_prototype).

(** [name in table]: true of an own property and of an inherited one. *)
Definition has_property (table : gmap string Register.t) (name : string) : bool :=
  match table !! name with
  | Some _ => true
  | None => inherited name
  end.

(** [table[name]]: the register stored under the name, or else the
    inherited member (a function, or the prototype itself), or else
    [undefined]. *)
Inductive member : Type :=
  | Own (r : Register.t)
  | Inherited
  | Absent.

Definition get_property (table : gmap string Register.t) (name : string) : member :=
  match table !! name with
  | Some r => Own r
  | None => if inherited name then Inherited else Absent
  end.

(** [addToAccumulator(accumulator, value)]: creates the table when it is
    missing and the register when the name is not [in] the table, pushes
    the value, and pushes and stores the new sum.  A member that is not a
    register has no [value], and [.push] on [undefined] throws.  The
    render is abandoned on an exception: the store it leaves is not part
    of the result. *)
Definition addToAccumulator (this : context) (accumulator : string)
    (v : jsval) (st : store) : result store :=
  match st !! global this with
  | None => TypeError
  | Some g =>
      let table :=
        match accumulators g with
        | None => ∅
        | Some t => t
        end in
      let table :=
        if has_property table accumulator then table
        else <[accumulator := Register.empty]> table in
      match get_property table accumulator with
      | Own reg =>
          let lastSum := Register.currentSum reg in
          let newSum :=
            match v with
            | JNum z => lastSum + z
            | JNull | JUndefined => lastSum
            end in
          let reg' :=
            {| Register.value := Register.value reg ++ [v];
               Register.sum := Register.sum reg ++ [newSum];
               Register.currentSum := newSum |} in
          Ok (<[global this :=
                  {| accumulators := Some (<[accumulator := reg']> table);
                     promises := promises g |}]> st)
      | Inherited | Absent => TypeError
      end
  end.

(** [array[i]]: [undefined] out of range. *)
Definition js_nth_val (l : list jsval) (i : nat) : jsval :=
  match l !! i with
  | Some v => v
  | None => JUndefined
  end.

Definition js_nth_num (l : list Z) (i : nat) : jsval :=
  match l !! i with
  | Some z => JNum z
  | None => JUndefined
  end.

(** The context built in the body of the loop of [iterateAccumulator]. *)
Definition replay_newContext (this : context) (acc : Register.t) (i : nat) : context :=
  {| global := global this;
     parent := Some this;
     index := JNum (Z.of_nat i);
     count := JNum (Z.of_nat (length (Register.value acc)));
     sum := js_nth_num (Register.sum acc) i;
     value := js_nth_val (Register.value acc) i |}.

(** [for (var i = 0; i < accumulator.value.length; i++) ...] *)
Equations? replay_loop (this : context) (acc : Register.t) (fn : block)
    (i : nat) (ret : string) : string
    by wf (length (Register.value acc) - i)%nat lt :=
  replay_loop this acc fn i ret with inspect (i <? length (Register.value acc))%nat := {
    | exist _ true _ =>
        replay_loop this acc fn (S i)
          (ret +:+ fn (replay_newContext this acc i));
    | exist _ false _ => ret }.
Proof.
  apply Nat.ltb_lt in e. lia.
Qed.

(** [iterateAccumulator(options)], with [hash.accumulator] the name of
    the register and a body that renders without writing to the store.
    It only reads the store, which it hands back as it got it.  An
    inherited member is not [null], and has no [value]: [.length] on
    [undefined] throws. *)
Definition iterateAccumulator (this : context) (hash_accumulator : string)
    (fn : block) (st : store) : result (string * store) :=
  match st !! global this with
  | None => TypeError
  | Some g =>
      match accumulators g with
      | None => Ok (EmptyString, st)
      | Some table =>
          match get_property table hash_accumulator with
          | Own acc => Ok (replay_loop this acc fn 0 EmptyString, st)
          | Inherited => TypeError
          | Absent => Ok (EmptyString, st)
          end
      end
  end.

(** ** [asLastWord] *)

(** A string is a sequence of code units, here the ones below 256.  The
    white space and line terminators that [trim] strips, among them: tab,
    line feed, vertical tab, form feed, carriage return, space and
    no-break space. *)
Definition is_white_space (c : ascii) : bool :=
  existsb (Ascii.eqb c)
    ["009"; "010"; "011"; "012"; "013"; " "; "160"]%char.

Fixpoint trimStart (s : string) : string :=
  match s with
  | EmptyString => EmptyString
  | String c r => if is_white_space c then trimStart r else s
  end.

Fixpoint trimEnd (s : string) : string :=
  match s with
  | EmptyString => EmptyString
  | String c r =>
      match trimEnd r with
      | EmptyString => if is_white_space c then EmptyString else String c EmptyString
      | r' => String c r'
      end
  end.

(** [str.trim()] *)
Definition trim (s : string) : string := trimEnd (trimStart s).

(** [str.split(sep)] for a separator of one character: the pieces
    between the occurrences of [sep]; the empty string gives one empty
    piece. *)
Fixpoint split (sep : ascii) (s : string) : list string :=
  match s with
  | EmptyString => [EmptyString]
  | String c r =>
      if Ascii.eqb c sep then EmptyString :: split sep r
      else
        match split sep r with
        | [] => [String c EmptyString]
        | w :: ws => String c w :: ws
        end
  end.

(** [asLastWord(str)]; [strings[i]] is [undefined] ([None]) out of
    range. *)
Definition asLastWord (str : string) : option string :=
  let strings := split " " (trim str) in
  if (0 <? length strings)%nat
  then strings !! (length strings - 1)%nat
  else Some (trim str).

(** [c] occurs in [s]. *)
Fixpoint occurs (c : ascii) (s : string) : bool :=
  match s with
  | EmptyString => false
  | String d r => Ascii.eqb d c || occurs c r
  end.

(** ** The [after] barrier *)

(** What [isResolved()] and [isRejected()] report about a promise. *)
Inductive status : Type :=
  | Pending
  | Resolved
  | Rejected.

Definition isResolved (s : status) : bool :=
  match s with Resolved => true | _ => false end.

Definition isRejected (s : status) : bool :=
  match s with Rejected => true | _ => false end.

(** The environment of a barrier: for each promise, the time (in
    milliseconds) at which it settles and whether it is then fulfilled
    ([true]) or rejected ([false]); [None] for a promise that never
    settles.  A promise settles once and keeps its state. *)
Definition schedule : Type := promise -> option (nat * bool).

Definition status_at (sch : schedule) (now : nat) (p : promise) : status :=
  match sch p with
  | Some (t, ok) =>
      if (t <=? now)%nat then (if ok then Resolved else Rejected) else Pending
  | None => Pending
  end.

(** How a promise made by the barrier ends up, and when; [Unsettled]
    when it is still pending after the timers that were run. *)
Inductive settlement : Type :=
  | ResolvedAt (t : nat)
  | RejectedAt (t : nat)
  | Unsettled.

(** [waitForSynchronousPromise(pollInterval, promise, resolve, reject)]
    called at time [now]: [setTimeout] calls it again [pollInterval]
    later; a timer is taken to fire when it is due, which is the earliest
    that [setTimeout] allows.  [timers] bounds the timer expiries that
    are run.  The second component counts the polls, that is the calls of
    the function. *)
Fixpoint waitForSynchronousPromise (timers : nat) (sch : schedule)
    (pollInterval : nat) (p : promise) (now : nat) : settlement * nat :=
  if isResolved (status_at sch now p) then (ResolvedAt now, 1%nat)
  else if isRejected (status_at sch now p) then (RejectedAt now, 1%nat)
  else
    match timers with
    | O => (Unsettled, 1%nat)
    | S k =>
        let '(r, n) :=
          waitForSynchronousPromise k sch pollInterval p (now + pollInterval)%nat in
        (r, S n)
    end.

(** Two inputs of [Promise.all]: the first rejection wins, and the
    result is fulfilled once both are. *)
Definition both (a b : settlement) : settlement :=
  match a, b with
  | RejectedAt t, RejectedAt u => RejectedAt (Nat.min t u)
  | RejectedAt t, _ => RejectedAt t
  | _, RejectedAt u => RejectedAt u
  | ResolvedAt t, ResolvedAt u => ResolvedAt (Nat.max t u)
  | _, _ => Unsettled
  end.

(** [Promise.all(promises)] called at time [now]. *)
Definition Promise_all (now : nat) (l : list settlement) : settlement :=
  foldr both (ResolvedAt now) l.

(** [promiseToResolveAllPreviousPromises(globalPromises)] called at time
    [now]; [.then(() => Promise.resolve())] keeps the settlement. *)
Definition promiseToResolveAllPreviousPromises (timers : nat) (sch : schedule)
    (globalPromises : list promise) (now : nat) : settlement * nat :=
  if (length globalPromises =? 0)%nat then (ResolvedAt now, 0%nat)
  else
    let promises :=
      map (fun p => waitForSynchronousPromise timers sch 100 p now) globalPromises in
    (Promise_all now (map fst promises), foldr Nat.add 0%nat (map snd promises)).

(** The promise returned by [after]. *)
Inductive barrier : Type :=
  | Rendered (t : nat) (text : string)
  | Failed (t : nat)
  | Waiting.

(** The context built by [after]. *)
Definition after_newContext (this : context) : context :=
  {| global := global this;
     parent := Some this;
     index := JUndefined;
     count := JUndefined;
     sum := JUndefined;
     value := JUndefined |}.

(** [after(options)] called at time [now], with the number of polls it
    made. *)
Definition after (timers : nat) (sch : schedule) (this : context) (fn : block)
    (now : nat) (st : store) : result (barrier * nat) :=
  match st !! global this with
  | None => TypeError
  | Some g =>
      let '(s, polls) :=
        promiseToResolveAllPreviousPromises timers sch (promises g) now in
      Ok (match s with
          | ResolvedAt t => Rendered t (fn (after_newContext this))
          | RejectedAt t => Failed t
          | Unsettled => Waiting
          end, polls)
  end.

(** ** Option lookups *)

(** The callbacks that the lookup helpers chain; they run once the
    promise they are chained to is fulfilled, not at the call of the
    helper. *)
Inductive callback : Type :=
  | selectAllOptionsValues (category : string)
  | collectBlocks
  | selectSpecificOptionValue (options key : string).

(** The render pass as the lookup helpers see it: the global objects, the
    promises made by [.then] with what they are chained to, and the next
    unused promise identity. *)
Record pass : Type := Pass {
  objects : store;
  chained : gmap promise (promise * callback);
  fresh : promise
}.

(** [p.then(cb)] makes a new promise. *)
Definition then_ (p : promise) (cb : callback) (s : pass) : promise * pass :=
  (fresh s,
   {| objects := objects s;
      chained := <[fresh s := (p, cb)]> (chained s);
      fresh := S (fresh s) |}).

Section OptionLookup.

(** [templateUtil.ensureTemplatePackageId], of template-util.js. *)
Variable ensureTemplatePackageId : context -> pass -> promise * pass.

(** [template_options(options)], with [options.hash.category]. *)
Definition template_options (this : context) (category : string)
    (s : pass) : promise * pass :=
  let '(p0, s0) := ensureTemplatePackageId this s in
  let '(p1, s1) := then_ p0 (selectAllOptionsValues category) s0 in
  then_ p1 collectBlocks s1.

(** [template_option_with_code(options, key)] *)
Definition template_option_with_code (this : context) (options key : string)
    (s : pass) : promise * pass :=
  let '(p0, s0) := ensureTemplatePackageId this s in
  then_ p0 (selectSpecificOptionValue options key) s0.

End OptionLookup.

(** Modelled from the spec: [ensureTemplatePackageId] of template-util.js,
    which is not among the sources.  It "resolves the current render
    pass's owning package identifier (an async operation against the
    external metadata store)": it answers with a promise of its own and
    leaves the global objects alone. *)
Definition ensureTemplatePackageId_spec (this : context) (s : pass) : promise * pass :=
  (fresh s,
   {| objects := objects s; chained := chained s; fresh := S (fresh s) |}).

(** Modelled from the spec: the engine's handling of the operation that
    a lookup helper returns; the engine that calls the helpers is not
    among the sources.  "The helper's own return value is the
    asynchronous operation itself; the engine must register this
    operation into [ctx.global.pendingOperations] as it is created": the
    promise is appended to the pending list of the global object of the
    context, and handed on. *)
Definition engine_registers (this : context) (r : promise * pass) : promise * pass :=
  (r.1,
   {| objects :=
        alter (fun g => {| accumulators := accumulators g;
                           promises := promises g ++ [r.1] |})
              (global this) (objects r.2);
      chained := chained r.2;
      fresh := fresh r.2 |}).

(** ** Auxiliary notions for the statements *)

(** Concatenation of the rendered blocks, in order. *)
Definition join (blocks : list string) : string :=
  foldr String.append EmptyString blocks.

(** A context outside of any iteration, with its global object at
    location 0. *)
Definition root_context : context :=
  {| global := 0%nat;
     parent := None;
     index := JUndefined;
     count := JUndefined;
     sum := JUndefined;
     value := JUndefined |}.

(** The contexts that the loop of [iterate] builds, in order. *)
Definition iterate_children (this : context) (cnt : jsval) : list context :=
  map (fun i => iterate_newContext this cnt (Z.of_nat i))
      (seq 0 (Z.to_nat (default 0 (ToNumber cnt)))).

(** The contexts that the loop of [iterateAccumulator] builds, in order. *)
Definition replay_children (this : context) (acc : Register.t) : list context :=
  map (replay_newContext this acc) (seq 0 (length (Register.value acc))).

(** [c] is a context that one of the helpers builds from [this]. *)
Inductive child_of (this : context) : context -> Prop :=
  | child_iterate (cnt : jsval) (c : context) :
      c ∈ iterate_children this cnt -> child_of this c
  | child_replay (acc : Register.t) (c : context) :
      c ∈ replay_children this acc -> child_of this c
  | child_after : child_of this (after_newContext this).

Inductive descendant (root : context) : context -> Prop :=
  | descendant_root : descendant root root
  | descendant_child (p c : context) :
      descendant root p -> child_of p c -> descendant root c.

(** The register [name] of the global object at [l], if there is one. *)
Definition register_of (st : store) (l : loc) (name : string) : option Register.t :=
  match st !! l with
  | Some g =>
      match accumulators g with
      | Some table => table !! name
      | None => None
      end
  | None => None
  end.

(** A sequence of [addToAccumulator] calls on the register [name], each
    with its own [this]. *)
Fixpoint record_all (calls : list (context * jsval)) (name : string)
    (st : store) : result store :=
  match calls with
  | [] => Ok st
  | (this, v) :: rest =>
      match addToAccumulator this name v st with
      | Ok st' => record_all rest name st'
      | TypeError => TypeError
      end
  end.

(** The integers on which the addition of JavaScript numbers is exact. *)
Definition safe_integer (z : Z) : Prop := - 2 ^ 53 <= z <= 2 ^ 53.

(** The sum of the values that are numbers. *)
Fixpoint sum_non_null (vs : list jsval) : Z :=
  match vs with
  | [] => 0
  | JNum z :: rest => z + sum_non_null rest
  | _ :: rest => sum_non_null rest
  end.

(** Values whose running sums the integers compute as the code does:
    every number recorded and every sum of the first values is a safe
    integer. *)
Definition sums_exact (vs : list jsval) : Prop :=
  Forall (fun v => forall z, v = JNum z -> safe_integer z) vs /\
  forall i : nat, safe_integer (sum_non_null (take i vs)).

(** The register after one more value: what [addToAccumulator] pushes
    and stores. *)
Definition push (reg : Register.t) (v : jsval) : Register.t :=
  let newSum :=
    match v with
    | JNum z => Register.currentSum reg + z
    | JNull | JUndefined => Register.currentSum reg
    end in
  {| Register.value := Register.value reg ++ [v];
     Register.sum := Register.sum reg ++ [newSum];
     Register.currentSum := newSum |}.

(** The store at the start of a render pass: one global object, with no
    accumulators and no pending promises. *)
Definition pass_start : store :=
  {[ 0%nat := {| accumulators := None; promises := [] |} ]}.

(** The calls [record("offset", 4)], [record("offset", 8)],
    [record("offset", null)]. *)
Definition offset_calls : list (context * jsval) :=
  [(root_context, JNum 4);
   (iterate_newContext root_context (JNum 2) 0, JNum 8);
   (root_context, JNull)].

(** The store after the calls of [offset_calls]. *)
Definition offset_recorded : store :=
  match record_all offset_calls "offset" pass_start with
  | Ok st => st
  | TypeError => pass_start
  end.

(** A body that shows the running sum of the replayed entry. *)
Definition show_sum : block :=
  fun c =>
    match sum c with
    | JNum 4 => "4;"
    | JNum 12 => "12;"
    | _ => "?;"
    end.

(** The pieces put together again, with [sep] between them. *)
Fixpoint unsplit (sep : ascii) (pieces : list string) : string :=
  match pieces with
  | [] => EmptyString
  | [w] => w
  | w :: ws => w +:+ String sep (unsplit sep ws)
  end.

(** What the promise of [after] becomes, given the settlement of the
    promise it is chained to. *)
Definition barrier_of (s : settlement) (this : context) (fn : block) : barrier :=
  match s with
  | ResolvedAt t => Rendered t (fn (after_newContext this))
  | RejectedAt t => Failed t
  | Unsettled => Waiting
  end.

(** A schedule in which promise 0 is fulfilled after 250 ms, promise 1
    after 30 ms and promise 2 is rejected after 120 ms. *)
Definition sample_schedule : schedule :=
  fun p =>
    match p with
    | 0%nat => Some (250%nat, true)
    | 1%nat => Some (30%nat, true)
    | 2%nat => Some (120%nat, false)
    | _ => None
    end.

(** A store whose global object has the promises [ps] pending. *)
Definition pending (ps : list promise) : store :=
  {[ 0%nat := {| accumulators := None; promises := ps |} ]}.

(** A render pass at its start: no promise made yet. *)
Definition pass_zero : pass :=
  {| objects := pass_start; chained := ∅; fresh := 0%nat |}.

(** A schedule in which no promise ever settles. *)
Definition never_settles : schedule := fun _ => None.

(** The body of the list scenario: an opening bracket in the first
    iteration, the index, a comma except in the last iteration and a
    closing bracket in the last one. *)
Definition bracketed_item : block :=
  fun c =>
    rendered (first c (fun _ => "["))
    +:+ match index c with
        | JNum 0 => "0"
        | JNum 1 => "1"
        | JNum 2 => "2"
        | _ => "?"
        end
    +:+ rendered (not_last c (fun _ => ","))
    +:+ rendered (last c (fun _ => "]")).

(** ** The other string helpers *)

(** [trim_string(str)] *)
Definition trim_string (str : string) : string :=
  let result := trim str in
  result.

(** [isEqual(string_a, string_b)]: strict equality of the trimmed
    strings. *)
Definition isEqual (string_a string_b : string) : bool :=
  String.eqb (trim string_a) (trim string_b).

(** [s.repeat(n)] for a count that is not negative. *)
Fixpoint repeat_string (s : string) (n : nat) : string :=
  match n with
  | O => EmptyString
  | S k => s +:+ repeat_string s k
  end.

(** The result of a call that may throw a [RangeError]. *)
Inductive ranged (A : Type) : Type :=
  | Returned (a : A)
  | RangeError.
Arguments Returned {A} a.
Arguments RangeError {A}.

(** [ident(cnt)]: every number of the value domain is an integer, and
    [repeat] throws for a negative count.  The limit on the length of a
    string is not modelled. *)
Definition ident (cnt : jsval) : ranged string :=
  match cnt with
  | JNum z =>
      if z <? 0 then RangeError
      else Returned (repeat_string "  " (Z.to_nat z))
  | JUndefined | JNull => Returned "  "
  end.

(** Only white space. *)
Fixpoint blank (s : string) : bool :=
  match s with
  | EmptyString => true
  | String c r => is_white_space c && blank r
  end.

Definition head_char (s : string) : option ascii :=
  match s with
  | EmptyString => None
  | String c _ => Some c
  end.

Fixpoint last_char (s : string) : option ascii :=
  match s with
  | EmptyString => None
  | String c EmptyString => Some c
  | String _ r => last_char r
  end.

(** The items with [sep] between them. *)
Fixpoint join_with (sep : string) (items : list string) : string :=
  match items with
  | [] => EmptyString
  | [x] => x
  | x :: xs => x +:+ sep +:+ join_with sep xs
  end.

(** ** Notions for the accumulators *)

(** One call after another; an exception ends the sequence. *)
Definition and_then {A B : Type} (r : result A) (f : A -> result B) : result B :=
  match r with
  | Ok a => f a
  | TypeError => TypeError
  end.

(** A register whose lists go together: as many sums as values, and
    [currentSum] the last sum (0 when there is none). *)
Definition register_wf (r : Register.t) : Prop :=
  length (Register.sum r) = length (Register.value r) /\
  List.last (Register.sum r) 0 = Register.currentSum r.

(** The number that a recorded value adds to the sum. *)
Definition delta (v : jsval) : Z :=
  match v with
  | JNum z => z
  | JNull | JUndefined => 0
  end.

(** The context that the replay of the values [vs] builds for the value
    [v] at index [i]. *)
Definition replayed_context (this : context) (vs : list jsval) (i : nat) (v : jsval)
    : context :=
  {| global := global this;
     parent := Some this;
     index := JNum (Z.of_nat i);
     count := JNum (Z.of_nat (length vs));
     sum := JNum (sum_non_null (take (S i) vs));
     value := v |}.

(** ** Notions for the barrier *)

(** The time at which a promise made by the barrier settled, if it
    did. *)
Definition settled_at (s : settlement) : option nat :=
  match s with
  | ResolvedAt t | RejectedAt t => Some t
  | Unsettled => None
  end.

(** The global object with another list of pending promises. *)
Definition with_promises (g : global_object) (ps : list promise) : global_object :=
  {| accumulators := accumulators g; promises := ps |}.

(** No later than [h], if settled. *)
Definition within (h : nat) (s : settlement) : Prop :=
  match settled_at s with
  | Some t => (t <= h)%nat
  | None => True
  end.

(** [s'] is what [s] has become when more timers are run after time
    [h]: the same if [s] had settled, and otherwise still unsettled or
    settled after [h]. *)
Definition later_than (h : nat) (s s' : settlement) : Prop :=
  match s with
  | Unsettled =>
      match settled_at s' with
      | Some t => (h < t)%nat
      | None => True
      end
  | _ => s' = s
  end.

(** * Properties *)

(** ** Positional helpers *)

Ltac positional :=
  unfold first, last, not_last, middle, js_minus, ToNumber;
  repeat match goal with
         | H : index _ = _ |- _ => rewrite H
         | H : count _ = _ |- _ => rewrite H
         end;
  unfold loose_eq_number, not_null; cbn [andb negb];
  repeat match goal with
         | |- context [(?a =? ?b)] => destruct (Z.eqb_spec a b); cbn [andb negb]
         end;
  try done; try lia; try (exfalso; lia).

(** C7: in a context with [0 <= index < count], for [count = 1] the
    helpers [first] and [last] render the body and [middle] and
    [not_last] render nothing; for [count > 1] exactly one of [first]
    (at index 0), [last] (at index count-1) and [middle] (elsewhere)
    renders the body. *)
Theorem positional_first_middle_last (this : context) (fn : block) (i c : Z) :
  index this = JNum i -> count this = JNum c -> 0 <= i < c ->
  (c = 1 ->
     first this fn = Some (fn this) /\ last this fn = Some (fn this) /\
     middle this fn = None /\ not_last this fn = None) /\
  (1 < c ->
     (i = 0 /\ first this fn = Some (fn this) /\
        middle this fn = None /\ last this fn = None) \/
     (i = c - 1 /\ last this fn = Some (fn this) /\
        first this fn = None /\ middle this fn = None) \/
     (i <> 0 /\ i <> c - 1 /\ middle this fn = Some (fn this) /\
        first this fn = None /\ last this fn = None)).
Proof.
  intros Hi Hc Hr. split.
  - intros ->. assert (i = 0) as -> by lia. repeat split; positional.
  - intros Hgt.
    destruct (decide (i = 0)) as [->|Hn0].
    { left. repeat split; positional. }
    destruct (decide (i = c - 1)) as [->|Hnl].
    { right; left. repeat split; positional. }
    right; right. repeat split; positional.
Qed.

Lemma positional_first_middle_last_witness :
  let this := iterate_newContext root_context (JNum 3) 1 in
  index this = JNum 1 /\ count this = JNum 3 /\
  middle this (fun _ => "x"%string) = Some "x"%string /\
  first this (fun _ => "x"%string) = None /\
  last this (fun _ => "x"%string) = None.
Proof.
  intros this.
  destruct (positional_first_middle_last this (fun _ => "x"%string) 1 3
              eq_refl eq_refl ltac:(lia)) as [_ H].
  destruct (H ltac:(lia)) as [[H0 _]|[[H0 _]|(_ & _ & Hm & Hf & Hl)]];
    [discriminate H0 | discriminate H0 |].
  repeat split; assumption.
Defined.

(** Outside of an iteration [first] returns no value, for which nothing
    is rendered. *)
Example first_outside_iteration :
  first root_context (fun _ => "body"%string) = None /\
  rendered (first root_context (fun _ => "body"%string)) = EmptyString.
Proof. split; reflexivity. Qed.

(** C8: each positional helper is total and never fails: it renders the
    body in [this] or else, in its negative case, the empty string (it
    then returns no value, for which the engine renders nothing); and
    whenever [index] or [count] is absent it renders the empty string. *)
Theorem positional_negative_case (this : context) (fn : block)
    (h : context -> block -> option string) :
  h ∈ [first; last; not_last; middle] ->
  (h this fn = Some (fn this) \/ h this fn = None) /\
  (h this fn = None -> rendered (h this fn) = EmptyString) /\
  (not_null (index this) && not_null (count this) = false ->
   rendered (h this fn) = EmptyString).
Proof.
  intros Hh.
  assert (h = first \/ h = last \/ h = not_last \/ h = middle) as Hcases.
  { rewrite !elem_of_cons in Hh. rewrite elem_of_nil in Hh. tauto. }
  split; [|split].
  - destruct Hcases as [-> | [-> | [-> | ->]]];
      unfold first, last, not_last, middle;
      match goal with
      | |- context [if ?b then _ else _] => destruct b
      end; (by left) || (by right).
  - by intros ->.
  - intros Habsent.
    destruct Hcases as [-> | [-> | [-> | ->]]];
      unfold first, last, not_last, middle; by rewrite Habsent.
Qed.

Lemma positional_negative_case_witness :
  rendered (not_last root_context (fun _ => "body"%string)) = EmptyString.
Proof.
  apply (positional_negative_case root_context (fun _ => "body"%string) not_last).
  - rewrite !elem_of_cons. tauto.
  - reflexivity.
Defined.

(** ** [iterate] *)

Lemma append_empty_l (s : string) : EmptyString +:+ s = s.
Proof. reflexivity. Qed.

Lemma append_cons (c : ascii) (s t : string) : String c s +:+ t = String c (s +:+ t).
Proof. reflexivity. Qed.

Lemma append_empty_r (s : string) : s +:+ EmptyString = s.
Proof. induction s as [|c s IH]; [done|]. by rewrite append_cons, IH. Qed.

Lemma append_assoc (s t u : string) : (s +:+ t) +:+ u = s +:+ t +:+ u.
Proof. induction s as [|c s IH]; [done|]. by rewrite !append_cons, IH. Qed.

Lemma iterate_loop_step this cnt fn i ret :
  iterate_loop this cnt fn i ret =
  if js_lt i cnt
  then iterate_loop this cnt fn (i + 1) (ret +:+ fn (iterate_newContext this cnt i))
  else ret.
Proof.
  funelim (iterate_loop this cnt fn i ret).
  - rewrite e. reflexivity.
  - rewrite e. reflexivity.
Qed.

(** The loop from [i], with [k] indices left below the count. *)
Lemma iterate_loop_blocks this cnt fn (k : nat) :
  forall (i : nat) (ret : string),
    (i + k)%nat = Z.to_nat (default 0 (ToNumber cnt)) ->
    iterate_loop this cnt fn (Z.of_nat i) ret =
    ret +:+ join (map (fun j => fn (iterate_newContext this cnt (Z.of_nat j))) (seq i k)).
Proof.
  induction k as [|k IH]; intros i ret Hk; rewrite iterate_loop_step.
  - replace (js_lt (Z.of_nat i) cnt) with false.
    + unfold join. simpl. by rewrite append_empty_r.
    + unfold js_lt. destruct (ToNumber cnt) as [z|]; simpl in *; [|done].
      symmetry. apply Z.ltb_ge. lia.
  - replace (js_lt (Z.of_nat i) cnt) with true.
    + replace (Z.of_nat i + 1) with (Z.of_nat (S i)) by lia.
      rewrite IH by lia. simpl.
      unfold join. simpl. apply append_assoc.
    + unfold js_lt. destruct (ToNumber cnt) as [z|]; simpl in *; [|lia].
      symmetry. apply Z.ltb_lt. lia.
Qed.

(** [iterate] renders the body in the contexts of [iterate_children], in
    order. *)
Lemma iterate_children_blocks this cnt fn :
  iterate this cnt fn = join (map fn (iterate_children this cnt)).
Proof.
  unfold iterate, iterate_children.
  change 0 with (Z.of_nat 0).
  rewrite (iterate_loop_blocks this cnt fn (Z.to_nat (default 0 (ToNumber cnt))) 0 EmptyString)
    by lia.
  rewrite append_empty_l. by rewrite map_map.
Qed.

(** C6: for a non-negative integer count [n], [iterate] renders exactly
    [n] blocks and concatenates them in index order, the [i]-th being the
    body rendered in a child context with [index = i] and [count = n];
    for a count of 0 the output is the empty string. *)
Theorem iterate_count_blocks (this : context) (n : nat) (fn : block) :
  (exists blocks : list string,
     length blocks = n /\
     (forall i : nat, (i < n)%nat ->
        blocks !! i =
        Some (fn {| global := global this;
                    parent := Some this;
                    index := JNum (Z.of_nat i);
                    count := JNum (Z.of_nat n);
                    sum := JUndefined;
                    value := JUndefined |})) /\
     iterate this (JNum (Z.of_nat n)) fn = join blocks) /\
  iterate this (JNum 0) fn = EmptyString.
Proof.
  split; [|reflexivity].
  exists (map fn (iterate_children this (JNum (Z.of_nat n)))).
  split; [|split; [|apply iterate_children_blocks]].
  - unfold iterate_children. simpl. rewrite Nat2Z.id.
    by rewrite !length_map, length_seq.
  - intros i Hi. unfold iterate_children. simpl. rewrite Nat2Z.id.
    rewrite !list_lookup_fmap, lookup_seq_lt by done. reflexivity.
Qed.

Lemma iterate_count_blocks_witness :
  exists blocks : list string,
    length blocks = 3%nat /\
    iterate root_context (JNum 3) (fun c => match index c with JNum 1 => "b" | _ => "a" end)
      = join blocks.
Proof.
  destruct (iterate_count_blocks root_context 3
              (fun c => match index c with JNum 1 => "b" | _ => "a" end))
    as [(blocks & Hlen & _ & Hit) _].
  exists blocks. split; [exact Hlen | exact Hit].
Defined.

Example iterate_three :
  iterate root_context (JNum 3) (fun c => match index c with JNum 1 => "b" | _ => "a" end)
  = "aba".
Proof. reflexivity. Qed.

(** The scenario of the iteration with positional helpers:
    [{{#iterate count=3}}{{#first}}[{{/first}}{{index}}{{#not_last}},{{/not_last}}{{#last}}]{{/last}}{{/iterate}}]. *)
Example iterate_bracketed_list :
  iterate root_context (JNum 3) bracketed_item = "[0,1,2]".
Proof. reflexivity. Qed.

(** C3 as stated fails: a negative count and an absent count are not
    rejected, [iterate] returns the empty string. *)
Lemma iterate_negative_count_not_rejected :
  iterate root_context (JNum (-2)) (fun _ => "body"%string) = EmptyString /\
  iterate root_context JUndefined (fun _ => "body"%string) = EmptyString.
Proof. split; reflexivity. Qed.

(** C3, amended: [iterate] has no error path; with a count that is a
    negative integer, [null] or [undefined] the loop test fails at once
    and the empty string is returned. *)
Theorem iterate_invalid_count (this : context) (cnt : jsval) (fn : block) :
  (forall n : nat, cnt <> JNum (Z.of_nat n)) ->
  iterate this cnt fn = EmptyString.
Proof.
  intros Hcnt. unfold iterate. rewrite iterate_loop_step.
  replace (js_lt 0 cnt) with false; [done|].
  destruct cnt as [| |z]; try done.
  unfold js_lt. simpl. symmetry. apply Z.ltb_ge.
  destruct (decide (z <= 0)) as [|Hpos]; [done|].
  exfalso. apply (Hcnt (Z.to_nat z)). f_equal. lia.
Qed.

Lemma iterate_invalid_count_witness :
  iterate root_context (JNum (-5)) (fun _ => "body"%string) = EmptyString.
Proof.
  apply (iterate_invalid_count root_context (JNum (-5))).
  intros n H. injection H. lia.
Defined.

(** ** Accumulators *)

Lemma register_of_Some_global st l name r :
  register_of st l name = Some r -> is_Some (st !! l).
Proof. unfold register_of. destruct (st !! l); [eauto|done]. Qed.

(** One call that finds its register, or a name that the table does not
    inherit: the register, made on the spot if need be, gets the value
    pushed. *)
Lemma addToAccumulator_Ok this name v st g :
  st !! global this = Some g ->
  let table := match accumulators g with None => ∅ | Some t => t end in
  inherited name = false \/ is_Some (table !! name) ->
  addToAccumulator this name v st =
  Ok (<[global this :=
          {| accumulators :=
               Some (<[name := push (default Register.empty (table !! name)) v]> table);
             promises := promises g |}]> st).
Proof.
  intros Hg table Hname. unfold addToAccumulator. rewrite Hg. fold table.
  unfold has_property, get_property.
  destruct (table !! name) as [r|] eqn:Hr.
  - by rewrite Hr.
  - destruct Hname as [Hname|[? ?]]; [|done]. rewrite Hname.
    rewrite lookup_insert_eq. by rewrite insert_insert_eq.
Qed.

(** One call on an inherited name without a register of its own. *)
Lemma addToAccumulator_inherited this name v st :
  inherited name = true ->
  register_of st (global this) name = None ->
  addToAccumulator this name v st = TypeError.
Proof.
  intros Hname. unfold register_of, addToAccumulator.
  destruct (st !! global this) as [g|]; [|done].
  unfold has_property, get_property.
  destruct (accumulators g) as [table|].
  - intros Hr. by rewrite Hr, Hname, Hr.
  - intros _. by rewrite lookup_empty, Hname, lookup_empty.
Qed.

Lemma addToAccumulator_push this name v st :
  is_Some (st !! global this) ->
  inherited name = false \/ is_Some (register_of st (global this) name) ->
  exists st',
    addToAccumulator this name v st = Ok st' /\
    register_of st' (global this) name =
      Some (push (default Register.empty (register_of st (global this) name)) v).
Proof.
  intros [g Hg] Hname.
  assert (register_of st (global this) name =
          match accumulators g with None => ∅ | Some t => t end !! name) as Hreg.
  { unfold register_of. rewrite Hg. destruct (accumulators g); [done|].
    by rewrite lookup_empty. }
  rewrite Hreg in Hname |- *.
  rewrite (addToAccumulator_Ok this name v st g Hg Hname).
  eexists. split; [reflexivity|].
  unfold register_of. rewrite lookup_insert_eq. simpl. by rewrite lookup_insert_eq.
Qed.

Lemma record_all_push l name calls :
  forall st r,
    Forall (fun cv : context * jsval => global cv.1 = l) calls ->
    register_of st l name = Some r ->
    exists st',
      record_all calls name st = Ok st' /\
      register_of st' l name = Some (foldl push r (map snd calls)).
Proof.
  induction calls as [|[this v] calls IH]; intros st r Hl Hr.
  - exists st. done.
  - apply Forall_cons in Hl as [Hthis Hl]. simpl in Hthis. subst l.
    destruct (addToAccumulator_push this name v st) as (st1 & Hadd & Hreg).
    { by eapply register_of_Some_global. }
    { right. by rewrite Hr. }
    rewrite Hr in Hreg. simpl in Hreg.
    destruct (IH st1 _ Hl Hreg) as (st' & Hrec & Hreg').
    exists st'. simpl. rewrite Hadd. done.
Qed.

Lemma sum_non_null_snoc vs v :
  sum_non_null (vs ++ [v]) =
  sum_non_null vs + match v with JNum z => z | _ => 0 end.
Proof.
  induction vs as [|w vs IH]; simpl.
  - destruct v; lia.
  - destruct w; rewrite IH; lia.
Qed.

(** The registers that pushing [vs] onto [r] gives. *)
Lemma foldl_push r vs :
  let R := foldl push r vs in
  Register.value R = Register.value r ++ vs /\
  length (Register.sum R) = (length (Register.sum r) + length vs)%nat /\
  Register.currentSum R = Register.currentSum r + sum_non_null vs /\
  (forall i : nat, (i < length vs)%nat ->
     Register.sum R !! (length (Register.sum r) + i)%nat =
     Some (Register.currentSum r + sum_non_null (take (S i) vs))) /\
  (vs <> [] -> List.last (Register.sum R) 0 = Register.currentSum R).
Proof.
  induction vs as [|v vs IH] using rev_ind; simpl.
  - rewrite app_nil_r. repeat split; try lia; try done.
  - rewrite foldl_app. simpl. destruct IH as (Hv & Hlen & Hcur & Hsum & _).
    set (R := foldl push r vs) in *.
    assert (Register.currentSum (push R v) =
            Register.currentSum r + sum_non_null (vs ++ [v])) as Hcur'.
    { rewrite sum_non_null_snoc. unfold push. simpl. rewrite Hcur. destruct v; lia. }
    repeat split.
    + unfold push. simpl. rewrite Hv. by rewrite app_assoc.
    + unfold push. simpl. rewrite !length_app, Hlen. simpl. lia.
    + exact Hcur'.
    + intros i Hi. rewrite length_app in Hi. simpl in Hi.
      destruct (decide (i < length vs)%nat) as [Hlt|Hge].
      * change (Register.sum (push R v)) with (Register.sum R ++ [Register.currentSum (push R v)]).
        rewrite lookup_app_l by lia. rewrite Hsum by done.
        by rewrite take_app_le by lia.
      * assert (i = length vs) as -> by lia.
        change (Register.sum (push R v)) with (Register.sum R ++ [Register.currentSum (push R v)]).
        rewrite lookup_app_r by lia.
        replace (length (Register.sum r) + length vs - length (Register.sum R))%nat
          with 0%nat by lia.
        rewrite take_ge by (rewrite length_app; simpl; lia).
        rewrite <- Hcur'. reflexivity.
    + intros _.
      change (Register.sum (push R v)) with (Register.sum R ++ [Register.currentSum (push R v)]).
      by rewrite last_last.
Qed.

(** C4: the register is not created on the first call when its name is
    one that the table inherits from [Object.prototype]: the test
    [accumulator in this.global.accumulators] finds the inherited member,
    no register is made, and the call throws instead of recording the
    value. *)
Lemma accumulator_inherited_name_throws :
  inherited "toString" = true /\
  register_of pass_start 0%nat "toString" = None /\
  record_all [(root_context, JNum 1)] "toString" pass_start = TypeError.
Proof. repeat split. Qed.

(** X25: after the calls [addToAccumulator(name, v0)], ...,
    [addToAccumulator(name, vn)], with a name that the table does not
    inherit and values that are [null] or integers whose sums stay
    within the safe integers, made through contexts that share one
    global object in which the register did not exist, the register
    exists, holds the values in the order of the calls, its [i]-th sum is
    the sum of the numbers among [v0..vi] (a [null] repeats the previous
    sum), and [currentSum] is the last sum. *)
Theorem accumulator_running_sums (l : loc) (name : string)
    (calls : list (context * jsval)) (st : store) :
  inherited name = false ->
  sums_exact (map snd calls) ->
  calls <> [] ->
  Forall (fun cv : context * jsval => global cv.1 = l) calls ->
  is_Some (st !! l) ->
  register_of st l name = None ->
  exists (st' : store) (reg : Register.t),
    record_all calls name st = Ok st' /\
    register_of st' l name = Some reg /\
    Register.value reg = map snd calls /\
    length (Register.sum reg) = length calls /\
    (forall i : nat, (i < length calls)%nat ->
       Register.sum reg !! i = Some (sum_non_null (take (S i) (map snd calls)))) /\
    (forall i : nat, map snd calls !! S i = Some JNull ->
       Register.sum reg !! S i = Register.sum reg !! i) /\
    Register.currentSum reg = sum_non_null (map snd calls) /\
    List.last (Register.sum reg) 0 = Register.currentSum reg.
Proof.
  intros Hname _ Hne Hl Hg Hnone.
  destruct calls as [|[this v] calls]; [done|].
  pose proof Hl as Hl'. apply Forall_cons in Hl' as [Hthis Hrest]. simpl in Hthis. subst l.
  destruct (addToAccumulator_push this name v st Hg (or_introl Hname))
    as (st1 & Hadd & Hreg).
  rewrite Hnone in Hreg. simpl in Hreg.
  destruct (record_all_push _ name calls st1 _ Hrest Hreg) as (st' & Hrec & Hreg').
  exists st', (foldl push (push Register.empty v) (map snd calls)).
  change (foldl push (push Register.empty v) (map snd calls))
    with (foldl push Register.empty (map snd ((this, v) :: calls))) in *.
  set (vs := map snd ((this, v) :: calls)) in *.
  destruct (foldl_push Register.empty vs) as (Hv & Hlen & Hcur & Hsum & Hlast).
  assert (length vs = length ((this, v) :: calls)) as Hlvs by apply length_map.
  assert (forall i : nat, (i < length vs)%nat ->
            Register.sum (foldl push Register.empty vs) !! i =
            Some (sum_non_null (take (S i) vs))) as Hsum'.
  { intros i Hi. exact (Hsum i Hi). }
  split. { simpl. rewrite Hadd. exact Hrec. }
  split; [exact Hreg'|].
  split; [exact Hv|].
  split. { rewrite Hlen, Hlvs. reflexivity. }
  split. { intros i Hi. apply Hsum'. by rewrite Hlvs. }
  split.
  { intros i Hi.
    assert (S i < length vs)%nat as Hlt by (by eapply lookup_lt_Some).
    rewrite !Hsum' by lia. f_equal.
    rewrite (take_S_r vs (S i) JNull Hi). rewrite sum_non_null_snoc. lia. }
  split. { rewrite Hcur. apply Z.add_0_l. }
  apply Hlast. done.
Qed.

Lemma offset_calls_exact : sums_exact (map snd offset_calls).
Proof.
  split.
  - cbn. repeat apply Forall_cons_2; [| | |apply Forall_nil_2];
      intros z Hz; simplify_eq; unfold safe_integer; lia.
  - intros [|[|[|[|i]]]]; unfold safe_integer; simpl; lia.
Qed.

Lemma accumulator_running_sums_witness :
  exists (st' : store) (reg : Register.t),
    record_all offset_calls "offset" pass_start = Ok st' /\
    register_of st' 0%nat "offset" = Some reg /\
    Register.value reg = [JNum 4; JNum 8; JNull] /\
    Register.sum reg !! 2%nat = Some 12 /\
    Register.currentSum reg = 12.
Proof.
  destruct (accumulator_running_sums 0%nat "offset" offset_calls pass_start)
    as (st' & reg & Hrec & Hreg & Hv & _ & Hsum & _ & Hcur & _).
  - reflexivity.
  - exact offset_calls_exact.
  - discriminate.
  - repeat constructor.
  - eexists. reflexivity.
  - reflexivity.
  - exists st', reg. repeat split; try assumption.
    apply (Hsum 2%nat). simpl. lia.
Defined.

Example offset_sums :
  match record_all offset_calls "offset" pass_start with
  | Ok st' => Register.sum <$> register_of st' 0%nat "offset"
  | TypeError => None
  end = Some [4; 12; 12].
Proof. vm_compute. reflexivity. Qed.

Lemma replay_loop_step this acc fn i ret :
  replay_loop this acc fn i ret =
  if (i <? length (Register.value acc))%nat
  then replay_loop this acc fn (S i) (ret +:+ fn (replay_newContext this acc i))
  else ret.
Proof.
  funelim (replay_loop this acc fn i ret).
  - rewrite e. reflexivity.
  - rewrite e. reflexivity.
Qed.

Lemma replay_loop_blocks this acc fn (k : nat) :
  forall (i : nat) (ret : string),
    (i + k)%nat = length (Register.value acc) ->
    replay_loop this acc fn i ret =
    ret +:+ join (map (fun j => fn (replay_newContext this acc j)) (seq i k)).
Proof.
  induction k as [|k IH]; intros i ret Hk; rewrite replay_loop_step.
  - replace (i <? length (Register.value acc))%nat with false.
    + unfold join. simpl. by rewrite append_empty_r.
    + symmetry. apply Nat.ltb_ge. lia.
  - replace (i <? length (Register.value acc))%nat with true.
    + rewrite IH by lia. unfold join. simpl. apply append_assoc.
    + symmetry. apply Nat.ltb_lt. lia.
Qed.

(** [iterateAccumulator] renders the body in the contexts of
    [replay_children], in order. *)
Lemma replay_children_blocks this acc fn :
  replay_loop this acc fn 0 EmptyString = join (map fn (replay_children this acc)).
Proof.
  rewrite (replay_loop_blocks this acc fn (length (Register.value acc)) 0 EmptyString)
    by lia.
  rewrite append_empty_l. unfold replay_children. by rewrite map_map.
Qed.

(** C5: once the table exists, replaying a name that has no register
    and that the table inherits from [Object.prototype] reads the
    inherited member, which is not [null], and throws instead of
    rendering the empty string. *)
Lemma replay_inherited_name_throws :
  inherited "toString" = true /\
  register_of offset_recorded 0%nat "toString" = None /\
  iterateAccumulator root_context "toString" show_sum offset_recorded = TypeError.
Proof. repeat split. Qed.

(** X26: in a context whose global object exists, for a body
    that renders without writing to the store, [iterateAccumulator]
    renders the empty string when there is no register of that name and
    the name is not inherited by the table; for a register with [n]
    values it renders [n] blocks concatenated in recorded order, the
    [i]-th in a child context with [index = i], [count = n],
    [value = value[i]] and [sum = sum[i]]; the store is left as it was,
    and a second replay gives the same output. *)
Theorem replay_blocks (this : context) (name : string) (fn : block) (st : store) :
  is_Some (st !! global this) ->
  (inherited name = false ->
   register_of st (global this) name = None ->
     iterateAccumulator this name fn st = Ok (EmptyString, st)) /\
  (forall acc : Register.t,
     register_of st (global this) name = Some acc ->
     exists blocks : list string,
       length blocks = length (Register.value acc) /\
       (forall (i : nat) (v : jsval) (s : Z),
          Register.value acc !! i = Some v ->
          Register.sum acc !! i = Some s ->
          blocks !! i =
          Some (fn {| global := global this;
                      parent := Some this;
                      index := JNum (Z.of_nat i);
                      count := JNum (Z.of_nat (length (Register.value acc)));
                      sum := JNum s;
                      value := v |})) /\
       iterateAccumulator this name fn st = Ok (join blocks, st)) /\
  (forall (out : string) (st' : store),
     iterateAccumulator this name fn st = Ok (out, st') ->
     st' = st /\ iterateAccumulator this name fn st' = Ok (out, st')).
Proof.
  intros [g Hg]. unfold register_of, iterateAccumulator, get_property. rewrite Hg.
  split; [|split].
  - intros Hname. destruct (accumulators g) as [table|]; [|done].
    intros ->. by rewrite Hname.
  - intros acc Hacc. destruct (accumulators g) as [table|]; [|done].
    rewrite Hacc. exists (map fn (replay_children this acc)).
    split; [|split].
    + unfold replay_children. by rewrite !length_map, length_seq.
    + intros i v s Hv Hs. unfold replay_children.
      rewrite !list_lookup_fmap, lookup_seq_lt by (by eapply lookup_lt_Some).
      simpl. unfold replay_newContext, js_nth_num, js_nth_val. by rewrite Hv, Hs.
    + by rewrite replay_children_blocks.
  - intros out st' H.
    assert (st' = st) as ->.
    { destruct (accumulators g) as [table|];
        [destruct (table !! name); [|destruct (inherited name)]|]; congruence. }
    rewrite Hg. done.
Qed.

Lemma replay_blocks_witness :
  iterateAccumulator root_context "missing" show_sum offset_recorded =
    Ok (EmptyString, offset_recorded) /\
  (forall (out : string) (st' : store),
     iterateAccumulator root_context "offset" show_sum offset_recorded = Ok (out, st') ->
     st' = offset_recorded /\
     iterateAccumulator root_context "offset" show_sum st' = Ok (out, st')).
Proof.
  destruct (replay_blocks root_context "offset" show_sum offset_recorded) as (_ & _ & H).
  { eexists. reflexivity. }
  destruct (replay_blocks root_context "missing" show_sum offset_recorded) as (H0 & _).
  { eexists. reflexivity. }
  split; [apply H0; reflexivity | exact H].
Defined.

Example replay_offset_sums :
  iterateAccumulator root_context "offset" show_sum offset_recorded =
  Ok ("4;12;12;", offset_recorded).
Proof. vm_compute. reflexivity. Qed.

(** ** Child contexts *)

Lemma child_of_global this c :
  child_of this c -> global c = global this /\ parent c = Some this.
Proof.
  intros [cnt c' Hc | acc c' Hc | ].
  - unfold iterate_children in Hc. apply list_elem_of_fmap in Hc as (i & -> & _). done.
  - unfold replay_children in Hc. apply list_elem_of_fmap in Hc as (i & -> & _). done.
  - done.
Qed.

Lemma descendant_global root c : descendant root c -> global c = global root.
Proof.
  induction 1 as [|p c _ IH Hc]; [done|].
  apply child_of_global in Hc as [-> _]. exact IH.
Qed.

(** C9: the contexts in which [iterate], [iterateAccumulator] and
    [after] render the body all have the [global] of the invoking context
    (the same location of the store, not another object) and that context
    as [parent]; so every descendant of a context has the global object
    of that context, and recording through a descendant is recording
    through the root. *)
Theorem child_contexts_share_global (this : context) :
  (forall cnt : jsval,
     exists cs : list context,
       (forall fn, iterate this cnt fn = join (map fn cs)) /\
       Forall (fun c => global c = global this /\ parent c = Some this) cs) /\
  (forall (name : string) (st : store),
     exists cs : list context,
       (forall fn out st',
          iterateAccumulator this name fn st = Ok (out, st') -> out = join (map fn cs)) /\
       Forall (fun c => global c = global this /\ parent c = Some this) cs) /\
  (exists c : context,
     (global c = global this /\ parent c = Some this) /\
     forall timers sch fn now st t out polls,
       after timers sch this fn now st = Ok (Rendered t out, polls) -> out = fn c) /\
  (forall c : context,
     descendant this c ->
     global c = global this /\
     forall name v st, addToAccumulator c name v st = addToAccumulator this name v st).
Proof.
  split; [|split; [|split]].
  - intros cnt. exists (iterate_children this cnt). split.
    + intros fn. apply iterate_children_blocks.
    + apply Forall_forall. intros c Hc. apply child_of_global. by eapply child_iterate.
  - intros name st.
    destruct (st !! global this) as [g|] eqn:Hg; cycle 1.
    { exists []. split; [|constructor]. intros fn out st'.
      unfold iterateAccumulator. by rewrite Hg. }
    destruct (register_of st (global this) name) as [acc|] eqn:Hreg.
    + exists (replay_children this acc). split.
      * intros fn out st' H.
        unfold iterateAccumulator, get_property in H. unfold register_of in Hreg.
        rewrite Hg in H, Hreg. destruct (accumulators g) as [table|]; [|done].
        rewrite Hreg in H. injection H as <- _. apply replay_children_blocks.
      * apply Forall_forall. intros c Hc. apply child_of_global. by eapply child_replay.
    + exists []. split; [|constructor]. intros fn out st' H.
      unfold iterateAccumulator, get_property in H. unfold register_of in Hreg.
      rewrite Hg in H, Hreg. destruct (accumulators g) as [table|].
      * rewrite Hreg in H. destruct (inherited name); [done|]. by injection H as <- _.
      * by injection H as <- _.
  - exists (after_newContext this). split; [done|].
    intros timers sch fn now st t out polls. unfold after.
    destruct (st !! global this) as [g|]; [|done].
    destruct (promiseToResolveAllPreviousPromises timers sch (promises g) now) as [[u|u|] n];
      intros H; by simplify_eq.
  - intros c Hc. pose proof (descendant_global _ _ Hc) as Hglobal.
    split; [done|]. intros name v st. unfold addToAccumulator. by rewrite Hglobal.
Qed.

Lemma child_contexts_share_global_witness :
  let child := iterate_newContext root_context (JNum 2) 1 in
  let grandchild := after_newContext child in
  global grandchild = global root_context /\
  addToAccumulator grandchild "offset" (JNum 4) pass_start =
  addToAccumulator root_context "offset" (JNum 4) pass_start.
Proof.
  intros child grandchild.
  destruct (child_contexts_share_global root_context) as (_ & _ & _ & H).
  destruct (H grandchild) as [Hg Hadd].
  - apply descendant_child with (p := child).
    + apply descendant_child with (p := root_context); [constructor|].
      apply child_iterate with (cnt := JNum 2).
      unfold iterate_children. simpl. rewrite !elem_of_cons. tauto.
    + constructor.
  - split; [exact Hg | apply Hadd].
Defined.

(** ** [asLastWord] *)

Lemma split_cons sep s : exists w ws, split sep s = w :: ws.
Proof.
  induction s as [|c r (w & ws & IH)]; simpl; [by eauto|].
  destruct (Ascii.eqb c sep); [by eauto|]. rewrite IH. eauto.
Qed.

Lemma unsplit_split sep s : unsplit sep (split sep s) = s.
Proof.
  induction s as [|c r IH]; [done|]. simpl.
  destruct (split_cons sep r) as (w & ws & Hr). rewrite Hr in IH |- *.
  destruct (Ascii.eqb_spec c sep) as [->|Hne].
  - change (unsplit sep (EmptyString :: w :: ws))
      with (EmptyString +:+ String sep (unsplit sep (w :: ws))).
    by rewrite IH.
  - destruct ws as [|w' ws]; simpl in *; [by rewrite IH|].
    rewrite append_cons. by rewrite IH.
Qed.

Lemma split_no_sep sep s : Forall (fun w => occurs sep w = false) (split sep s).
Proof.
  induction s as [|c r IH]; simpl; [by repeat constructor|].
  destruct (Ascii.eqb_spec c sep) as [->|Hne].
  - by constructor.
  - destruct (split sep r) as [|w ws].
    + constructor; [|done]. simpl. destruct (Ascii.eqb_spec c sep); done.
    + apply Forall_cons in IH as [Hw Hws]. constructor; [|done].
      simpl. rewrite Hw. destruct (Ascii.eqb_spec c sep); done.
Qed.

Lemma split_without_sep sep s : occurs sep s = false -> split sep s = [s].
Proof.
  induction s as [|c r IH]; [done|]. simpl.
  destruct (Ascii.eqb c sep); [done|]. simpl. by intros ->%IH.
Qed.

Lemma unsplit_snoc sep ws w :
  ws <> [] -> unsplit sep (ws ++ [w]) = unsplit sep ws +:+ String sep w.
Proof.
  induction ws as [|x [|y ws] IH]; [done| |]; intros _.
  - reflexivity.
  - change (unsplit sep ((x :: y :: ws) ++ [w]))
      with (x +:+ String sep (unsplit sep ((y :: ws) ++ [w]))).
    rewrite IH by done.
    change (unsplit sep (x :: y :: ws)) with (x +:+ String sep (unsplit sep (y :: ws))).
    by rewrite append_assoc, append_cons.
Qed.

(** C10: [asLastWord(str)] is the last of the pieces of [str.trim()]
    between spaces: a piece without a space that either is the whole
    trimmed string or follows its last space; a trimmed string without a
    space is returned whole; and the list of pieces is never empty, so
    the [return str.trim()] after the test of the length is never
    reached. *)
Theorem asLastWord_last_token (str : string) :
  (0 <? length (split " " (trim str)))%nat = true /\
  (exists w : string,
     asLastWord str = Some w /\
     List.last (split " " (trim str)) EmptyString = w /\
     occurs " " w = false /\
     (trim str = w \/ exists pre, trim str = pre +:+ String " " w)) /\
  (occurs " " (trim str) = false -> asLastWord str = Some (trim str)).
Proof.
  set (t := trim str). unfold asLastWord. fold t.
  destruct (split_cons " " t) as (x & xs & Hsplit).
  assert ((0 <? length (split " " t))%nat = true) as Hlen
    by (rewrite Hsplit; reflexivity).
  rewrite Hlen. split; [done|]. split.
  - destruct (@exists_last _ (split " " t)) as (ws & w & Hw); [by rewrite Hsplit|].
    exists w. pose proof (split_no_sep " " t) as Hno. pose proof (unsplit_split " " t) as Hun.
    rewrite Hw in Hno, Hun |- *.
    split; [|split; [|split]].
    + rewrite length_app. simpl.
      rewrite lookup_app_r by lia.
      by replace (length ws + 1 - 1 - length ws)%nat with 0%nat by lia.
    + apply last_last.
    + apply Forall_app in Hno as [_ Hno]. by apply Forall_inv in Hno.
    + destruct ws as [|y ws].
      * left. by rewrite <- Hun.
      * right. exists (unsplit " " (y :: ws)). rewrite <- Hun. by apply unsplit_snoc.
  - intros Hno. by rewrite (split_without_sep " " t Hno).
Qed.

Lemma asLastWord_last_token_witness :
  asLastWord "  const char " = Some "char" /\ asLastWord " int" = Some "int".
Proof.
  split.
  - destruct (asLastWord_last_token "  const char ") as (_ & (w & -> & <- & _) & _).
    reflexivity.
  - apply asLastWord_last_token. reflexivity.
Defined.

Example asLastWord_examples :
  trim "  a b  " = "a b" /\
  asLastWord "unsigned  long " = Some "long" /\
  asLastWord "" = Some "" /\
  split " " "a  b" = ["a"; ""; "b"].
Proof. repeat split. Qed.

(** ** The [after] barrier *)

Lemma isResolved_status_at sch now p :
  isResolved (status_at sch now p) = true <->
  exists ts, sch p = Some (ts, true) /\ (ts <= now)%nat.
Proof.
  unfold status_at. destruct (sch p) as [[ts [|]]|]; simpl.
  - destruct (Nat.leb_spec ts now); simpl; split.
    + eauto.
    + done.
    + done.
    + intros (ts' & [= ->] & ?). lia.
  - destruct (ts <=? now)%nat; simpl; split; try done; by intros (? & [= ] & ?).
  - split; [done|]. by intros (? & [= ] & ?).
Qed.

Lemma isRejected_status_at sch now p :
  isRejected (status_at sch now p) = true <->
  exists ts, sch p = Some (ts, false) /\ (ts <= now)%nat.
Proof.
  unfold status_at. destruct (sch p) as [[ts [|]]|]; simpl.
  - destruct (ts <=? now)%nat; simpl; split; try done; by intros (? & [= ] & ?).
  - destruct (Nat.leb_spec ts now); simpl; split.
    + eauto.
    + done.
    + done.
    + intros (ts' & [= ->] & ?). lia.
  - split; [done|]. by intros (? & [= ] & ?).
Qed.

Lemma wait_step timers sch d p now :
  waitForSynchronousPromise timers sch d p now =
  if isResolved (status_at sch now p) then (ResolvedAt now, 1%nat)
  else if isRejected (status_at sch now p) then (RejectedAt now, 1%nat)
  else
    match timers with
    | O => (Unsettled, 1%nat)
    | S k =>
        (fst (waitForSynchronousPromise k sch d p (now + d)%nat),
         S (snd (waitForSynchronousPromise k sch d p (now + d)%nat)))
    end.
Proof.
  destruct timers as [|k]; simpl; [done|].
  by destruct (waitForSynchronousPromise k sch d p (now + d)%nat).
Qed.

(** A poller that resolves has seen its promise fulfilled. *)
Lemma wait_resolved sch d p timers :
  forall now t,
    fst (waitForSynchronousPromise timers sch d p now) = ResolvedAt t ->
    (now <= t)%nat /\ exists ts, sch p = Some (ts, true) /\ (ts <= t)%nat.
Proof.
  induction timers as [|k IH]; intros now t; rewrite wait_step;
    destruct (isResolved (status_at sch now p)) eqn:Hres;
    try (simpl; intros [= <-]; split; [lia|]; by apply (proj1 (isResolved_status_at _ _ _)));
    destruct (isRejected (status_at sch now p)) eqn:Hrej; simpl; try done.
  intros H. apply IH in H as [Hle H]. split; [lia|done].
Qed.

(** A poller of a promise that is rejected never resolves, and rejects
    once a poll comes after the rejection. *)
Lemma wait_rejected sch d p ts timers :
  sch p = Some (ts, false) ->
  forall now,
    (forall t, fst (waitForSynchronousPromise timers sch d p now) <> ResolvedAt t) /\
    ((ts <= now + d * timers)%nat ->
     exists t, fst (waitForSynchronousPromise timers sch d p now) = RejectedAt t).
Proof.
  intros Hp. induction timers as [|k IH]; intros now; rewrite wait_step;
    (destruct (isResolved (status_at sch now p)) eqn:Hres;
     [apply (proj1 (isResolved_status_at _ _ _)) in Hres as (? & ? & _); congruence|]);
    destruct (isRejected (status_at sch now p)) eqn:Hrej; simpl;
    try (split; [done | by eauto]).
  - split; [done|]. intros Hts. exfalso.
    assert (isRejected (status_at sch now p) = true) as Hr; [|congruence].
    apply (proj2 (isRejected_status_at _ _ _)). exists ts. split; [done|lia].
  - destruct (IH (now + d)%nat) as [IH1 IH2]. split; [done|].
    intros Hts. apply IH2. lia.
Qed.

(** A poller of a promise that is fulfilled resolves once a poll comes
    after the fulfilment. *)
Lemma wait_fulfilled sch d p ts timers :
  sch p = Some (ts, true) ->
  forall now,
    (ts <= now + d * timers)%nat ->
    exists t, fst (waitForSynchronousPromise timers sch d p now) = ResolvedAt t.
Proof.
  intros Hp. induction timers as [|k IH]; intros now Hts; rewrite wait_step.
  - replace (isResolved (status_at sch now p)) with true; [by eauto|].
    symmetry. apply (proj2 (isResolved_status_at _ _ _)). exists ts. split; [done|lia].
  - destruct (isResolved (status_at sch now p)) eqn:Hres; [by eauto|].
    destruct (isRejected (status_at sch now p)) eqn:Hrej.
    { apply (proj1 (isRejected_status_at _ _ _)) in Hrej as (? & ? & _). congruence. }
    simpl. apply IH. lia.
Qed.

Lemma Promise_all_resolved now l T :
  Promise_all now l = ResolvedAt T ->
  (now <= T)%nat /\ forall s, s ∈ l -> exists t, s = ResolvedAt t /\ (t <= T)%nat.
Proof.
  revert T. induction l as [|a l IH]; intros T; simpl.
  - intros [= <-]. split; [done|]. intros s Hs. by apply elem_of_nil in Hs.
  - fold (Promise_all now l).
    destruct a as [t|t|], (Promise_all now l) as [u|u|]; simpl; try done.
    intros [= <-]. destruct (IH u eq_refl) as [Hnow Hall]. split; [lia|].
    intros s [->|Hs]%elem_of_cons.
    + exists t. split; [done|lia].
    + destruct (Hall s Hs) as (t' & -> & ?). exists t'. split; [done|lia].
Qed.

Lemma Promise_all_rejected now l s t :
  s ∈ l -> s = RejectedAt t -> exists T, Promise_all now l = RejectedAt T.
Proof.
  intros Hs ->. induction l as [|a l IH]; [by apply elem_of_nil in Hs|].
  simpl. fold (Promise_all now l). apply elem_of_cons in Hs as [<-|Hs].
  - destruct (Promise_all now l); simpl; eauto.
  - destruct (IH Hs) as [T ->]. destruct a; simpl; eauto.
Qed.

Lemma Promise_all_all_resolved now l :
  (forall s, s ∈ l -> exists t, s = ResolvedAt t) ->
  exists T, Promise_all now l = ResolvedAt T.
Proof.
  induction l as [|a l IH]; intros Hall; simpl; [by eauto|].
  fold (Promise_all now l).
  destruct (Hall a) as [t ->]; [by left|].
  destruct IH as [T ->]; [|simpl; by eauto].
  intros s Hs. apply Hall. by right.
Qed.

Lemma promiseToResolveAllPreviousPromises_settlement timers sch ps now :
  fst (promiseToResolveAllPreviousPromises timers sch ps now) =
  Promise_all now (map (fun p => fst (waitForSynchronousPromise timers sch 100 p now)) ps).
Proof.
  unfold promiseToResolveAllPreviousPromises.
  destruct ps as [|p ps]; [done|].
  change (length (p :: ps) =? 0)%nat with false. cbv iota. cbn [fst].
  by rewrite map_map.
Qed.

Lemma after_outcome timers sch this fn now st g :
  st !! global this = Some g ->
  after timers sch this fn now st =
  Ok (barrier_of (fst (promiseToResolveAllPreviousPromises timers sch (promises g) now)) this fn,
      snd (promiseToResolveAllPreviousPromises timers sch (promises g) now)).
Proof.
  intros Hg. unfold after. rewrite Hg.
  by destruct (promiseToResolveAllPreviousPromises timers sch (promises g) now) as [[t|t|] n].
Qed.

(** C1: the barrier called at time [now] in a context whose global
    object holds the pending promises.  (1) If the body is rendered, at
    time [t], then every promise of the list as it was at the call has
    been fulfilled by [t], whatever the times at which they settle;
    (2) if every one of them is fulfilled, the body is rendered, in the
    context built by [after], once the polls have seen it; (3) if one of
    them is rejected, the body is never rendered and the barrier fails
    once a poll has seen the rejection; (4) with an empty list the body
    is rendered at the time of the call, without a single poll. *)
Theorem after_barrier (timers : nat) (sch : schedule) (this : context)
    (fn : block) (now : nat) (st : store) (g : global_object) :
  st !! global this = Some g ->
  (forall t out polls,
     after timers sch this fn now st = Ok (Rendered t out, polls) ->
     out = fn (after_newContext this) /\ (now <= t)%nat /\
     forall p, p ∈ promises g ->
       exists ts, sch p = Some (ts, true) /\ (ts <= t)%nat) /\
  ((forall p, p ∈ promises g ->
      exists ts, sch p = Some (ts, true) /\ (ts <= now + 100 * timers)%nat) ->
   exists t polls,
     after timers sch this fn now st =
     Ok (Rendered t (fn (after_newContext this)), polls)) /\
  (forall p ts,
     p ∈ promises g -> sch p = Some (ts, false) ->
     (forall t out polls,
        after timers sch this fn now st <> Ok (Rendered t out, polls)) /\
     ((ts <= now + 100 * timers)%nat ->
      exists t polls, after timers sch this fn now st = Ok (Failed t, polls))) /\
  (promises g = [] ->
   after timers sch this fn now st =
   Ok (Rendered now (fn (after_newContext this)), 0%nat)).
Proof.
  intros Hg. rewrite (after_outcome _ _ _ _ _ _ _ Hg).
  pose proof (promiseToResolveAllPreviousPromises_settlement timers sch (promises g) now) as Hs.
  set (w := fun p => fst (waitForSynchronousPromise timers sch 100 p now)) in *.
  split; [|split; [|split]].
  - intros t out polls [= Hb _].
    destruct (fst (promiseToResolveAllPreviousPromises timers sch (promises g) now))
      as [u|u|] eqn:Hfst; simpl in Hb; try done.
    injection Hb as -> <-. symmetry in Hs.
    apply Promise_all_resolved in Hs as [Hnow Hall].
    split; [done|]. split; [done|]. intros p Hp.
    destruct (Hall (w p)) as (t' & Hw & Hle).
    { apply list_elem_of_fmap. eauto. }
    apply wait_resolved in Hw as (_ & ts & Hsch & Hts).
    exists ts. split; [done|lia].
  - intros Hall.
    destruct (Promise_all_all_resolved now (map w (promises g))) as [T HT].
    { intros s (p & -> & Hp)%list_elem_of_fmap.
      destruct (Hall p Hp) as (ts & Hsch & Hts).
      by apply (wait_fulfilled sch 100 p ts timers Hsch now). }
    rewrite Hs, HT. simpl. eauto.
  - intros p ts Hp Hsch.
    destruct (wait_rejected sch 100 p ts timers Hsch now) as [Hnever Hrej].
    split.
    + intros t out polls [= Hb _].
      destruct (fst (promiseToResolveAllPreviousPromises timers sch (promises g) now))
        as [u|u|] eqn:Hfst; simpl in Hb; try done.
      symmetry in Hs. apply Promise_all_resolved in Hs as [_ Hall].
      destruct (Hall (w p)) as (t' & Hw & _).
      { apply list_elem_of_fmap. eauto. }
      by apply Hnever in Hw.
    + intros Hts. destruct (Hrej Hts) as [t Ht].
      destruct (Promise_all_rejected now (map w (promises g)) (w p) t) as [T HT];
        [apply list_elem_of_fmap; by eauto | done |].
      rewrite Hs, HT. simpl. eauto.
  - intros ->. reflexivity.
Qed.

Lemma after_barrier_witness :
  (exists t polls,
     after 5 sample_schedule root_context (fun _ => "done") 0 (pending [0; 1]%nat) =
     Ok (Rendered t "done", polls)) /\
  (exists t polls,
     after 5 sample_schedule root_context (fun _ => "done") 0 (pending [0; 2; 1]%nat) =
     Ok (Failed t, polls)) /\
  after 0 sample_schedule root_context (fun _ => "done") 0 (pending []) =
  Ok (Rendered 0 "done", 0%nat).
Proof.
  split; [|split].
  - refine (proj1 (proj2 (after_barrier 5 sample_schedule root_context (fun _ => "done") 0
                            (pending [0; 1]%nat) _ eq_refl)) _).
    intros p Hp. simpl in Hp. rewrite !elem_of_cons in Hp.
    destruct Hp as [->|[->|Hp]]; [| |by apply elem_of_nil in Hp].
    + exists 250%nat. split; [reflexivity|lia].
    + exists 30%nat. split; [reflexivity|lia].
  - refine (proj2 (proj1 (proj2 (proj2 (after_barrier 5 sample_schedule root_context
                            (fun _ => "done") 0 (pending [0; 2; 1]%nat) _ eq_refl)))
                     2%nat 120%nat _ eq_refl) _).
    + simpl. rewrite !elem_of_cons. tauto.
    + lia.
  - exact (proj2 (proj2 (proj2 (after_barrier 0 sample_schedule root_context
                            (fun _ => "done") 0 (pending []) _ eq_refl))) eq_refl).
Defined.

Example after_examples :
  after 5 sample_schedule root_context (fun _ => "done") 0 (pending [0; 1]%nat) =
    Ok (Rendered 300 "done", 6%nat) /\
  after 5 sample_schedule root_context (fun _ => "done") 0 (pending [0; 2; 1]%nat) =
    Ok (Failed 200, 9%nat) /\
  after 1 sample_schedule root_context (fun _ => "done") 0 (pending [0; 1]%nat) =
    Ok (Waiting, 4%nat).
Proof. repeat split. Qed.

(** ** Option lookups *)

Section OptionLookupRegistration.

Variable ensureTemplatePackageId : context -> pass -> promise * pass.


End OptionLookupRegistration.


(** * Further properties of the helpers *)

(** ** [trim_string] and [isEqual] *)

Lemma trimStart_decomp s :
  exists pre, s = pre +:+ trimStart s /\ blank pre = true.
Proof.
  induction s as [|c r (pre & Hr & Hpre)]; simpl.
  - by exists EmptyString.
  - destruct (is_white_space c) eqn:Hc.
    + exists (String c pre). rewrite append_cons, <- Hr. simpl. by rewrite Hc.
    + by exists EmptyString.
Qed.

Lemma trimStart_head s c :
  head_char (trimStart s) = Some c -> is_white_space c = false.
Proof.
  induction s as [|d r IH]; simpl; [done|].
  destruct (is_white_space d) eqn:Hd; [done|]. simpl. by intros [= <-].
Qed.

Lemma trimStart_fixed s :
  (forall c, head_char s = Some c -> is_white_space c = false) -> trimStart s = s.
Proof. destruct s as [|c r]; simpl; [done|]. intros H. by rewrite (H c eq_refl). Qed.

Lemma trimStart_blank pre s : blank pre = true -> trimStart (pre +:+ s) = trimStart s.
Proof.
  induction pre as [|c pre IH]; [done|]. rewrite append_cons. simpl.
  intros [Hc Hpre]%andb_true_iff. rewrite Hc. auto.
Qed.

Lemma trimEnd_decomp s :
  exists post, s = trimEnd s +:+ post /\ blank post = true.
Proof.
  induction s as [|c r (post & Hr & Hpost)]; simpl.
  - by exists EmptyString.
  - destruct (trimEnd r) as [|d t] eqn:Ht.
    + rewrite append_empty_l in Hr. subst post.
      destruct (is_white_space c) eqn:Hc.
      * exists (String c r). split; [done|]. simpl. by rewrite Hc.
      * exists r. by rewrite append_cons.
    + exists post. by rewrite append_cons, <- Hr.
Qed.

Lemma trimEnd_last s c :
  last_char (trimEnd s) = Some c -> is_white_space c = false.
Proof.
  induction s as [|d r IH]; simpl; [done|].
  destruct (trimEnd r) as [|e t] eqn:Ht.
  - destruct (is_white_space d) eqn:Hd; simpl; [done|]. by intros [= <-].
  - intros H. apply IH. exact H.
Qed.

Lemma trimEnd_fixed s :
  (forall c, last_char s = Some c -> is_white_space c = false) -> trimEnd s = s.
Proof.
  induction s as [|d r IH]; simpl; [done|]. intros H.
  destruct r as [|e t].
  - simpl. by rewrite (H d eq_refl).
  - rewrite IH by exact H. done.
Qed.

Lemma trimEnd_head s c :
  head_char (trimEnd s) = Some c -> head_char s = Some c.
Proof.
  destruct s as [|d r]; simpl; [done|].
  destruct (trimEnd r); [destruct (is_white_space d)|]; simpl; done.
Qed.

Lemma blank_app s t : blank (s +:+ t) = blank s && blank t.
Proof.
  induction s as [|c s IH]; [done|]. rewrite append_cons. simpl.
  rewrite IH. by rewrite andb_assoc.
Qed.

Lemma trimEnd_blank s : blank s = true -> trimEnd s = EmptyString.
Proof.
  induction s as [|c r IH]; simpl; [done|].
  intros [Hc Hr]%andb_true_iff. by rewrite IH, Hc.
Qed.

Lemma trimEnd_app_blank s post : blank post = true -> trimEnd (s +:+ post) = trimEnd s.
Proof.
  intros Hpost. induction s as [|c r IH].
  - rewrite append_empty_l. by apply trimEnd_blank.
  - rewrite append_cons. simpl. by rewrite IH.
Qed.

Lemma trimStart_all_blank s : blank s = true -> trimStart s = EmptyString.
Proof.
  induction s as [|c r IH]; simpl; [done|].
  intros [Hc Hr]%andb_true_iff. rewrite Hc. auto.
Qed.

Lemma trimStart_app_not_blank s t :
  blank s = false -> trimStart (s +:+ t) = trimStart s +:+ t.
Proof.
  induction s as [|c r IH]; [done|]. rewrite append_cons. simpl.
  destruct (is_white_space c); simpl; [exact IH|]. intros _. by rewrite append_cons.
Qed.

(** Trimming is not affected by white space around the string. *)
Lemma trim_padded pre s post :
  blank pre = true -> blank post = true -> trim (pre +:+ s +:+ post) = trim s.
Proof.
  intros Hpre Hpost. unfold trim. rewrite trimStart_blank by done.
  destruct (blank s) eqn:Hs.
  - rewrite !trimStart_all_blank; [done..|]. rewrite blank_app, Hs, Hpost. done.
  - rewrite trimStart_app_not_blank by done. by apply trimEnd_app_blank.
Qed.

Lemma trim_clean_ends s :
  (forall c, head_char (trim s) = Some c -> is_white_space c = false) /\
  (forall c, last_char (trim s) = Some c -> is_white_space c = false).
Proof.
  unfold trim. split.
  - intros c Hc. apply trimEnd_head in Hc. by eapply trimStart_head.
  - intros c. apply trimEnd_last.
Qed.

(** X1: [trim_string] removes exactly a run of white space at each end:
    the string is the result with white space before and after it, and
    the result neither begins nor ends with white space. *)
Theorem trim_string_strips_ends (str : string) :
  exists pre post : string,
    str = pre +:+ trim_string str +:+ post /\
    blank pre = true /\ blank post = true /\
    (forall c, head_char (trim_string str) = Some c -> is_white_space c = false) /\
    (forall c, last_char (trim_string str) = Some c -> is_white_space c = false).
Proof.
  unfold trim_string, trim.
  destruct (trimStart_decomp str) as (pre & Hpre & Hbpre).
  destruct (trimEnd_decomp (trimStart str)) as (post & Hpost & Hbpost).
  exists pre, post. split; [by rewrite <- Hpost|].
  split; [done|]. split; [done|]. apply (trim_clean_ends str).
Qed.

(** X2: trimming twice is trimming once, and a string that neither
    begins nor ends with white space is returned as it is. *)
Theorem trim_string_idempotent (str : string) :
  trim_string (trim_string str) = trim_string str /\
  ((forall c, head_char str = Some c -> is_white_space c = false) ->
   (forall c, last_char str = Some c -> is_white_space c = false) ->
   trim_string str = str).
Proof.
  assert (forall s,
            (forall c, head_char s = Some c -> is_white_space c = false) ->
            (forall c, last_char s = Some c -> is_white_space c = false) ->
            trim_string s = s) as Hfixed.
  { intros s Hh Hl. unfold trim_string, trim.
    rewrite (trimStart_fixed s Hh). by apply trimEnd_fixed. }
  split; [|apply Hfixed].
  destruct (trim_clean_ends str) as [Hh Hl]. by apply Hfixed.
Qed.

Lemma isEqual_true a b : isEqual a b = true <-> trim a = trim b.
Proof. unfold isEqual. apply String.eqb_eq. Qed.

(** [isEqual] is an equivalence: every string is equal to itself,
    the order of the arguments does not matter, and two strings equal to
    a third are equal to each other. *)
Lemma isEqual_equivalence (a b c : string) :
  isEqual a a = true /\
  isEqual a b = isEqual b a /\
  (isEqual a b = true -> isEqual b c = true -> isEqual a c = true).
Proof.
  split; [by apply isEqual_true|]. split.
  - unfold isEqual. apply String.eqb_sym.
  - rewrite !isEqual_true. congruence.
Qed.

(** X3: [isEqual] ignores the white space around its arguments, and on
    strings that neither begin nor end with white space it is equality. *)
Theorem isEqual_modulo_padding (a b pre post pre' post' : string) :
  blank pre = true -> blank post = true ->
  blank pre' = true -> blank post' = true ->
  isEqual (pre +:+ a +:+ post) (pre' +:+ b +:+ post') = isEqual a b /\
  (trim a = a -> trim b = b -> (isEqual a b = true <-> a = b)).
Proof.
  intros H1 H2 H3 H4. split.
  - unfold isEqual. by rewrite !trim_padded.
  - intros Ha Hb. rewrite isEqual_true. by rewrite Ha, Hb.
Qed.

Lemma isEqual_modulo_padding_witness :
  isEqual "  int " "int" = true.
Proof.
  destruct (isEqual_modulo_padding "int" "int" "  " " " "" ""
              eq_refl eq_refl eq_refl eq_refl) as [H _].
  exact H.
Defined.

(** ** [ident] *)

Lemma repeat_string_add s n m :
  repeat_string s (n + m) = repeat_string s n +:+ repeat_string s m.
Proof.
  induction n as [|n IH]; [done|]. simpl. by rewrite IH, append_assoc.
Qed.

Lemma length_append s t :
  String.length (s +:+ t) = (String.length s + String.length t)%nat.
Proof.
  induction s as [|c s IH]; [done|]. rewrite append_cons. simpl. by rewrite IH.
Qed.

Lemma occurs_append c s t : occurs c (s +:+ t) = occurs c s || occurs c t.
Proof.
  induction s as [|d s IH]; [done|]. rewrite append_cons. simpl.
  by rewrite IH, orb_assoc.
Qed.

(** X4: for a count [n] that is not negative [ident] returns [2 * n]
    characters, all of them spaces, and the indentation of [n + m] is the
    indentation of [n] followed by that of [m]. *)
Theorem ident_spaces (n m : nat) :
  exists s t u : string,
    ident (JNum (Z.of_nat n)) = Returned s /\
    ident (JNum (Z.of_nat m)) = Returned t /\
    ident (JNum (Z.of_nat (n + m))) = Returned u /\
    String.length s = (2 * n)%nat /\
    (forall c, occurs c s = true -> c = " "%char) /\
    u = s +:+ t.
Proof.
  assert (forall k : nat,
            ident (JNum (Z.of_nat k)) = Returned (repeat_string "  " k)) as Hident.
  { intros k. unfold ident.
    destruct (Z.ltb_spec (Z.of_nat k) 0) as [Hneg|_]; [lia|]. by rewrite Nat2Z.id. }
  exists (repeat_string "  " n), (repeat_string "  " m), (repeat_string "  " (n + m)).
  rewrite !Hident. repeat split.
  - induction n as [|n IH]; [done|].
    change (repeat_string "  " (S n)) with ("  " +:+ repeat_string "  " n).
    rewrite length_append, IH. simpl. lia.
  - induction n as [|n IH]; [done|]. intros c.
    change (repeat_string "  " (S n)) with ("  " +:+ repeat_string "  " n).
    rewrite occurs_append. intros [Hc|Hc]%orb_true_iff; [|by apply IH].
    cbn [occurs] in Hc. by destruct (Ascii.eqb_spec " "%char c).
  - apply repeat_string_add.
Qed.

(** X5: [ident] throws a [RangeError] for every negative integer count;
    for the count 0 it returns the empty string; and without a count
    ([null] or [undefined]) it returns two spaces, one level of
    indentation, as for the count 1. *)
Theorem ident_edge_cases (cnt : jsval) :
  (forall z, cnt = JNum z -> z < 0 -> ident cnt = RangeError) /\
  ident (JNum 0) = Returned EmptyString /\
  (not_null cnt = false ->
   ident cnt = Returned "  " /\ ident cnt = ident (JNum 1)).
Proof.
  split; [|split].
  - intros z -> Hz. simpl. by destruct (Z.ltb_spec z 0); [|lia].
  - reflexivity.
  - by destruct cnt.
Qed.

(** ** [asLastWord] and [split] *)

Lemma split_app_sep sep a b :
  split sep (a +:+ String sep b) = split sep a ++ split sep b.
Proof.
  induction a as [|c a IH].
  - rewrite append_empty_l. simpl. by rewrite Ascii.eqb_refl.
  - rewrite append_cons. simpl. rewrite IH.
    destruct (Ascii.eqb c sep); [done|].
    by destruct (split_cons sep a) as (w & ws & ->).
Qed.

(** X6: [split] and joining with the separator undo each other: the
    pieces of a string put together again give the string, and a
    non-empty list of pieces without the separator is what [split] finds
    in their joining. *)
Theorem split_unsplit_round_trip (sep : ascii) (s : string) (pieces : list string) :
  unsplit sep (split sep s) = s /\
  (pieces <> [] -> Forall (fun w => occurs sep w = false) pieces ->
   split sep (unsplit sep pieces) = pieces).
Proof.
  split; [apply unsplit_split|].
  induction pieces as [|w [|w' rest] IH]; [done| |]; intros _ Hno.
  - apply Forall_inv in Hno. by apply split_without_sep.
  - apply Forall_cons in Hno as [Hw Hrest].
    change (unsplit sep (w :: w' :: rest))
      with (w +:+ String sep (unsplit sep (w' :: rest))).
    rewrite split_app_sep, IH by done.
    by rewrite (split_without_sep sep w Hw).
Qed.

Lemma last_char_app s t : t <> EmptyString -> last_char (s +:+ t) = last_char t.
Proof.
  intros Ht. induction s as [|c s IH]; [done|]. rewrite append_cons.
  change (last_char (String c (s +:+ t)))
    with (match s +:+ t with EmptyString => Some c | _ => last_char (s +:+ t) end).
  destruct (s +:+ t) as [|d u] eqn:Hst; [|exact IH].
  destruct s; [|done]. rewrite append_empty_l in Hst. done.
Qed.

Lemma blank_trim s : blank s = true <-> trim s = EmptyString.
Proof.
  split.
  - intros Hs. unfold trim. by rewrite trimStart_all_blank.
  - intros Ht. unfold trim in Ht.
    destruct (trimStart_decomp s) as (pre & Hpre & Hbpre).
    destruct (trimEnd_decomp (trimStart s)) as (post & Hpost & Hbpost).
    rewrite Ht, append_empty_l in Hpost.
    rewrite Hpre, Hpost, blank_app, Hbpre, Hbpost. done.
Qed.

(** X7: [asLastWord] of a string of white space (or of the empty string)
    is the empty string; of any other string it is a word that is not
    empty and has no space in it. *)
Theorem asLastWord_non_empty (str : string) :
  (blank str = true -> asLastWord str = Some EmptyString) /\
  (blank str = false ->
   exists w, asLastWord str = Some w /\ w <> EmptyString /\ occurs " " w = false).
Proof.
  split.
  - intros Hb. unfold asLastWord. apply blank_trim in Hb. by rewrite Hb.
  - intros Hb. unfold asLastWord. set (t := trim str).
    assert (t <> EmptyString) as Hne.
    { intros Ht. apply blank_trim in Ht. congruence. }
    destruct (split_cons " " t) as (x & xs & Hsplit).
    destruct (@exists_last _ (split " " t)) as (ws & w & Hw); [by rewrite Hsplit|].
    pose proof (split_no_sep " " t) as Hno. pose proof (unsplit_split " " t) as Hun.
    rewrite Hw in Hno, Hun |- *.
    exists w. split; [|split].
    + replace (0 <? length (ws ++ [w]))%nat with true
        by (rewrite length_app; simpl; symmetry; apply Nat.ltb_lt; lia).
      rewrite length_app. simpl. rewrite lookup_app_r by lia.
      by replace (length ws + 1 - 1 - length ws)%nat with 0%nat by lia.
    + intros ->. destruct ws as [|y ws].
      * simpl in Hun. congruence.
      * rewrite unsplit_snoc in Hun by done.
        destruct (trim_clean_ends str) as [_ Hlast]. fold t in Hlast.
        specialize (Hlast " "%char). rewrite <- Hun, last_char_app in Hlast by done.
        by specialize (Hlast eq_refl).
    + apply Forall_app in Hno as [_ Hno]. by apply Forall_inv in Hno.
Qed.

Lemma asLastWord_non_empty_witness :
  exists w, asLastWord " uint8_t  value " = Some w /\ w <> EmptyString /\ occurs " " w = false.
Proof.
  exact (proj2 (asLastWord_non_empty " uint8_t  value ") eq_refl).
Defined.

Lemma word_ends w :
  w <> EmptyString ->
  (forall c, occurs c w = true -> is_white_space c = false) ->
  (forall c, head_char w = Some c -> is_white_space c = false) /\
  (forall c, last_char w = Some c -> is_white_space c = false) /\
  occurs " " w = false.
Proof.
  intros Hne Hw. split; [|split].
  - destruct w as [|d r]; [done|]. intros c [= <-]. apply Hw. simpl.
    by rewrite Ascii.eqb_refl.
  - intros c Hc. apply Hw. clear Hw Hne.
    induction w as [|d r IH]; [done|].
    destruct r as [|e u].
    + injection Hc as ->. simpl. by rewrite Ascii.eqb_refl.
    + change (occurs c (String d (String e u)))
        with (Ascii.eqb d c || occurs c (String e u)).
      rewrite (IH Hc). apply orb_true_r.
  - destruct (occurs " " w) eqn:Ho; [|done]. by apply Hw in Ho.
Qed.

(** X8: [asLastWord] returns the word that follows the last space: for a
    word [w] that is not empty and has no white space in it, the last
    word of [pre] followed by a space and [w] is [w], whatever [pre] is,
    and the last word of [w] alone is [w]. *)
Theorem asLastWord_after_space (pre w : string) :
  w <> EmptyString ->
  (forall c, occurs c w = true -> is_white_space c = false) ->
  asLastWord (pre +:+ String " " w) = Some w /\ asLastWord w = Some w.
Proof.
  intros Hne Hw. destruct (word_ends w Hne Hw) as (Hhead & Hlast & Hspace).
  assert (trim w = w) as Htw.
  { unfold trim. rewrite (trimStart_fixed w Hhead). by apply trimEnd_fixed. }
  assert (asLastWord w = Some w) as Hword.
  { unfold asLastWord. rewrite Htw. by rewrite (split_without_sep " " w Hspace). }
  split; [|exact Hword].
  destruct (blank pre) eqn:Hpre.
  - unfold asLastWord.
    replace (trim (pre +:+ String " " w)) with (trim w).
    { rewrite Htw. by rewrite (split_without_sep " " w Hspace). }
    symmetry. rewrite <- (append_empty_r w) at 1.
    change (String " " (w +:+ EmptyString)) with (" " +:+ w +:+ EmptyString).
    rewrite <- append_assoc. apply trim_padded; [|done].
    by rewrite blank_app, Hpre.
  - unfold asLastWord.
    assert (trim (pre +:+ String " " w) = trimStart pre +:+ String " " w) as ->.
    { unfold trim. rewrite trimStart_app_not_blank by done.
      apply trimEnd_fixed. intros c.
      change (String " " w) with (" " +:+ w). rewrite <- append_assoc.
      rewrite last_char_app by done. apply Hlast. }
    rewrite split_app_sep, (split_without_sep " " w Hspace).
    replace (0 <? length (split " " (trimStart pre) ++ [w]))%nat with true
      by (rewrite length_app; simpl; symmetry; apply Nat.ltb_lt; lia).
    rewrite length_app. simpl. rewrite lookup_app_r by lia.
    by replace (length (split " " (trimStart pre)) + 1 - 1
                - length (split " " (trimStart pre)))%nat with 0%nat by lia.
Qed.

Lemma asLastWord_after_space_witness :
  asLastWord (" const  unsigned" +:+ String " " "int") = Some "int".
Proof.
  apply (asLastWord_after_space " const  unsigned" "int").
  - done.
  - intros c Hc. cbn [occurs] in Hc.
    repeat (apply orb_true_iff in Hc as [Hc|Hc];
            [by apply Ascii.eqb_eq in Hc as <- |]).
    done.
Defined.

(** ** Positional helpers and [iterate] together *)

(** X9: where [index] and [count] are set, exactly one of [last] and
    [not_last] renders the body; and in every context [middle] renders
    exactly when [not_last] does and [first] does not. *)
Theorem positional_complements (this : context) (fn : block) :
  (not_null (index this) && not_null (count this) = true ->
     (last this fn = Some (fn this) /\ not_last this fn = None) \/
     (last this fn = None /\ not_last this fn = Some (fn this))) /\
  (middle this fn = Some (fn this) <->
     first this fn = None /\ not_last this fn = Some (fn this)).
Proof.
  unfold first, last, not_last, middle.
  destruct (not_null (index this) && not_null (count this)); cbn [andb].
  - split.
    + intros _. destruct (loose_eq_number (index this) (js_minus (count this) 1));
        cbn [negb]; [by left | by right].
    + destruct (loose_eq_number (index this) (Some 0)),
        (loose_eq_number (index this) (js_minus (count this) 1));
        cbn [negb andb]; split; try done; by intros [? ?].
  - split; [done|]. split; [done | by intros [_ ?]].
Qed.

Lemma positional_in_child this (n i : nat) fn :
  let c := iterate_newContext this (JNum (Z.of_nat n)) (Z.of_nat i) in
  rendered (first c fn) = (if (i =? 0)%nat then fn c else EmptyString) /\
  rendered (last c fn) = (if (S i =? n)%nat then fn c else EmptyString) /\
  rendered (not_last c fn) = (if (S i =? n)%nat then EmptyString else fn c).
Proof.
  intros c. unfold first, last, not_last, js_minus. subst c.
  cbn -[Z.of_nat Z.sub Nat.eqb].
  repeat split.
  - destruct (Nat.eqb_spec i 0) as [->|Hi]; [done|].
    destruct (Z.eqb_spec (Z.of_nat i) 0) as [?|_]; [exfalso; lia | done].
  - destruct (Nat.eqb_spec (S i) n) as [Hi|Hi];
      destruct (Z.eqb_spec (Z.of_nat i) (Z.of_nat n - 1)) as [?|?];
      try done; exfalso; lia.
  - destruct (Nat.eqb_spec (S i) n) as [Hi|Hi];
      destruct (Z.eqb_spec (Z.of_nat i) (Z.of_nat n - 1)) as [?|?];
      try done; exfalso; lia.
Qed.

Lemma iterate_children_nat this (n : nat) :
  iterate_children this (JNum (Z.of_nat n)) =
  map (fun i : nat => iterate_newContext this (JNum (Z.of_nat n)) (Z.of_nat i)) (seq 0 n).
Proof. unfold iterate_children. simpl. by rewrite Nat2Z.id. Qed.

Lemma join_separated (g : nat -> string) (sep close : string) (n k : nat) :
  forall a : nat,
    (a + S k = n)%nat ->
    join (map (fun i => g i +:+ (if (S i =? n)%nat then close else sep)) (seq a (S k))) =
    join_with sep (map g (seq a (S k))) +:+ close.
Proof.
  induction k as [|k IH]; intros a Ha.
  - change (seq a 1) with [a]. cbn [map join_with].
    replace (S a =? n)%nat with true by (symmetry; apply Nat.eqb_eq; lia).
    unfold join. cbn [foldr]. by rewrite append_empty_r.
  - change (seq a (S (S k))) with (a :: seq (S a) (S k)).
    rewrite !map_cons.
    change (join (?x :: ?l)) with (x +:+ join l).
    rewrite (IH (S a)) by lia.
    replace (S a =? n)%nat with false by (symmetry; apply Nat.eqb_neq; lia).
    change (seq (S a) (S k)) with (S a :: seq (S (S a)) k). rewrite map_cons.
    change (join_with sep (g a :: g (S a) :: ?l))
      with (g a +:+ sep +:+ join_with sep (g (S a) :: l)).
    by rewrite !append_assoc.
Qed.

(** X10: the list idiom.  A body that puts [open] in [first], then an
    item, then [sep] in [not_last] and [close] in [last], iterated a
    positive number of times, renders [open], the items with [sep]
    between them, and [close]; iterated zero times it renders nothing,
    not even the brackets. *)
Theorem iterate_list_idiom (this : context) (n : nat) (item : block)
    (open close sep : string) :
  let body : block :=
    fun c =>
      rendered (first c (fun _ => open)) +:+ item c
      +:+ rendered (not_last c (fun _ => sep))
      +:+ rendered (last c (fun _ => close)) in
  (n = 0%nat -> iterate this (JNum (Z.of_nat n)) body = EmptyString) /\
  ((0 < n)%nat ->
   iterate this (JNum (Z.of_nat n)) body =
   open +:+ join_with sep (map item (iterate_children this (JNum (Z.of_nat n))))
   +:+ close).
Proof.
  intros body. split; [by intros ->|]. intros Hn.
  rewrite iterate_children_blocks, iterate_children_nat.
  set (mk := fun i : nat => iterate_newContext this (JNum (Z.of_nat n)) (Z.of_nat i)).
  rewrite !map_map.
  set (g := fun i : nat => item (mk i)).
  assert (forall i,
            body (mk i) =
            (if (i =? 0)%nat then open else EmptyString)
            +:+ g i +:+ (if (S i =? n)%nat then close else sep)) as Hbody.
  { intros i. unfold body, g, mk.
    destruct (positional_in_child this n i (fun _ => open)) as (-> & _ & _).
    destruct (positional_in_child this n i (fun _ => sep)) as (_ & _ & ->).
    destruct (positional_in_child this n i (fun _ => close)) as (_ & -> & _).
    destruct (S i =? n)%nat; [done|]. by rewrite append_empty_r. }
  destruct n as [|k]; [lia|].
  change (seq 0 (S k)) with (0%nat :: seq 1 k).
  rewrite !map_cons. change (join (?x :: ?l)) with (x +:+ join l).
  rewrite (Hbody 0%nat). cbn [Nat.eqb].
  assert (map (fun i => body (mk i)) (seq 1 k) =
          map (fun i => g i +:+ (if (S i =? S k)%nat then close else sep)) (seq 1 k)) as ->.
  { apply map_ext_in. intros i Hi%in_seq. rewrite Hbody.
    by destruct i as [|i]; [lia|]. }
  rewrite append_assoc. f_equal.
  exact (join_separated g sep close (S k) k 0 eq_refl).
Qed.

Lemma iterate_list_idiom_witness :
  iterate root_context (JNum 3)
    (fun c =>
       rendered (first c (fun _ => "(")) +:+ show_sum c
       +:+ rendered (not_last c (fun _ => ", "))
       +:+ rendered (last c (fun _ => ")")))
  = "(" +:+ join_with ", " (map show_sum (iterate_children root_context (JNum 3))) +:+ ")".
Proof.
  apply (proj2 (iterate_list_idiom root_context 3 show_sum "(" ")" ", ")). lia.
Defined.

(** ** Accumulators: what a call leaves alone *)

Lemma register_of_table st l g name :
  st !! l = Some g ->
  register_of st l name =
  match accumulators g with None => ∅ | Some t => t end !! name.
Proof.
  intros Hg. unfold register_of. rewrite Hg.
  destruct (accumulators g); [done|]. by rewrite lookup_empty.
Qed.

(** [addToAccumulator] throws when [this.global] is not an object and
    when the name is inherited by the table and has no register. *)
Lemma addToAccumulator_TypeError this name v st :
  addToAccumulator this name v st = TypeError <->
  st !! global this = None \/
  (inherited name = true /\ register_of st (global this) name = None).
Proof.
  destruct (st !! global this) as [g|] eqn:Hg; cycle 1.
  { unfold addToAccumulator. rewrite Hg. split; [by left|done]. }
  destruct (inherited name) eqn:Hname;
    [destruct (register_of st (global this) name) as [r|] eqn:Hr|].
  - rewrite (addToAccumulator_Ok this name v st g Hg).
    + split; [done|]. intros [?|[_ ?]]; done.
    + right. rewrite <- (register_of_table st _ g name Hg). by rewrite Hr.
  - rewrite (addToAccumulator_inherited this name v st Hname Hr).
    split; [by right|done].
  - rewrite (addToAccumulator_Ok this name v st g Hg); [|by left].
    split; [done|]. intros [?|[? _]]; done.
Qed.

Lemma addToAccumulator_inv this name v st st' :
  addToAccumulator this name v st = Ok st' ->
  exists g table,
    st !! global this = Some g /\
    table = match accumulators g with None => ∅ | Some t => t end /\
    (inherited name = false \/ is_Some (table !! name)) /\
    st' = <[global this :=
              {| accumulators :=
                   Some (<[name := push (default Register.empty (table !! name)) v]> table);
                 promises := promises g |}]> st.
Proof.
  intros Hadd.
  destruct (st !! global this) as [g|] eqn:Hg; cycle 1.
  { unfold addToAccumulator in Hadd. by rewrite Hg in Hadd. }
  assert (inherited name = false \/
          is_Some (match accumulators g with None => ∅ | Some t => t end !! name))
    as Hname.
  { rewrite <- (register_of_table st _ g name Hg).
    destruct (inherited name) eqn:Hi; [|by left].
    destruct (register_of st (global this) name) eqn:Hr; [right; eauto|].
    rewrite (addToAccumulator_inherited this name v st Hi Hr) in Hadd. done. }
  rewrite (addToAccumulator_Ok this name v st g Hg Hname) in Hadd.
  injection Hadd as <-. exists g. eexists. by repeat split.
Qed.

Lemma addToAccumulator_others this name v st st' :
  addToAccumulator this name v st = Ok st' ->
  (forall l name', (l, name') <> (global this, name) ->
     register_of st' l name' = register_of st l name') /\
  (forall l, promises <$> st' !! l = promises <$> st !! l) /\
  (forall l, is_Some (st' !! l) <-> is_Some (st !! l)).
Proof.
  intros Hadd.
  destruct (addToAccumulator_inv this name v st st' Hadd)
    as (g & table & Hg & Htable & _ & ->).
  split; [|split].
  - intros l name' Hne. unfold register_of.
    destruct (decide (l = global this)) as [->|Hl].
    + rewrite lookup_insert_eq, Hg. simpl.
      rewrite lookup_insert_ne by congruence. subst table.
      destruct (accumulators g); [done|]. by rewrite lookup_empty.
    + by rewrite lookup_insert_ne.
  - intros l. destruct (decide (l = global this)) as [->|Hl].
    + by rewrite lookup_insert_eq, Hg.
    + by rewrite lookup_insert_ne.
  - intros l. destruct (decide (l = global this)) as [->|Hl].
    + rewrite lookup_insert_eq, Hg. split; eauto.
    + by rewrite lookup_insert_ne.
Qed.

(** X11: a call of [addToAccumulator] changes one register only: every
    register of another name or of another global object is as before,
    the pending promises of every global object are as before, and no
    global object appears or disappears. *)
Theorem addToAccumulator_frame (this : context) (name : string) (v : jsval)
    (st st' : store) :
  addToAccumulator this name v st = Ok st' ->
  (forall l name', (l, name') <> (global this, name) ->
     register_of st' l name' = register_of st l name') /\
  (forall l, promises <$> st' !! l = promises <$> st !! l) /\
  (forall l, is_Some (st' !! l) <-> is_Some (st !! l)).
Proof. apply addToAccumulator_others. Qed.

Lemma addToAccumulator_frame_witness :
  exists st',
    addToAccumulator root_context "size" (JNum 2) offset_recorded = Ok st' /\
    register_of st' 0%nat "offset" = register_of offset_recorded 0%nat "offset".
Proof.
  eexists. split; [reflexivity|].
  apply (proj1 (addToAccumulator_frame root_context "size" (JNum 2) offset_recorded
                  _ eq_refl)).
  discriminate.
Defined.

(** Whether a call throws is not changed by a call on another
    register. *)
Lemma addToAccumulator_TypeError_others c1 n1 v1 c2 n2 v2 st st1 :
  (global c1, n1) <> (global c2, n2) ->
  addToAccumulator c1 n1 v1 st = Ok st1 ->
  addToAccumulator c2 n2 v2 st1 = TypeError <->
  addToAccumulator c2 n2 v2 st = TypeError.
Proof.
  intros Hne H1. rewrite !addToAccumulator_TypeError.
  destruct (addToAccumulator_others c1 n1 v1 st st1 H1) as (Hreg & _ & Hdom).
  rewrite (Hreg (global c2) n2) by congruence.
  rewrite !eq_None_not_Some. by rewrite Hdom.
Qed.

(** X12: recording into two different registers commutes: the two orders
    of the calls give the same store, or fail alike. *)
Theorem addToAccumulator_commute (c1 c2 : context) (n1 n2 : string)
    (v1 v2 : jsval) (st : store) :
  (global c1, n1) <> (global c2, n2) ->
  and_then (addToAccumulator c1 n1 v1 st) (addToAccumulator c2 n2 v2) =
  and_then (addToAccumulator c2 n2 v2 st) (addToAccumulator c1 n1 v1).
Proof.
  intros Hne.
  assert ((global c2, n2) <> (global c1, n1)) as Hne' by congruence.
  destruct (addToAccumulator c1 n1 v1 st) as [st1|] eqn:H1;
    destruct (addToAccumulator c2 n2 v2 st) as [st2|] eqn:H2; cbn [and_then].
  2:{ by apply (addToAccumulator_TypeError_others c1 n1 v1 c2 n2 v2 st st1). }
  2:{ symmetry. by apply (addToAccumulator_TypeError_others c2 n2 v2 c1 n1 v1 st st2). }
  2:{ done. }
  destruct (addToAccumulator c2 n2 v2 st1) as [st12|] eqn:H12; cycle 1.
  { apply (addToAccumulator_TypeError_others c1 n1 v1 c2 n2 v2 st st1 Hne H1) in H12.
    congruence. }
  destruct (addToAccumulator c1 n1 v1 st2) as [st21|] eqn:H21; cycle 1.
  { apply (addToAccumulator_TypeError_others c2 n2 v2 c1 n1 v1 st st2 Hne' H2) in H21.
    congruence. }
  f_equal.
  destruct (addToAccumulator_inv _ _ _ _ _ H1) as (g1 & t1 & Hg1 & Ht1 & _ & ->).
  destruct (addToAccumulator_inv _ _ _ _ _ H2) as (g2 & t2 & Hg2 & Ht2 & _ & ->).
  destruct (addToAccumulator_inv _ _ _ _ _ H12) as (h2 & u2 & Hh2 & Hu2 & _ & ->).
  destruct (addToAccumulator_inv _ _ _ _ _ H21) as (h1 & u1 & Hh1 & Hu1 & _ & ->).
  clear H1 H2 H12 H21.
  destruct (decide (global c1 = global c2)) as [Hl|Hl].
  - assert (n1 <> n2) as Hn by congruence.
    rewrite <- Hl in *. rewrite Hg1 in Hg2. injection Hg2 as <-.
    rewrite lookup_insert_eq in Hh1, Hh2.
    injection Hh1 as <-. injection Hh2 as <-.
    cbn [accumulators promises] in *. subst u1 u2 t2.
    set (T := match accumulators g1 with Some t => t | None => ∅ end) in *. subst t1.
    rewrite !insert_insert_eq. f_equal. f_equal. f_equal.
    rewrite !lookup_insert_ne by done. by apply insert_insert_ne.
  - rewrite lookup_insert_ne in Hh1, Hh2 by done.
    rewrite Hg1 in Hh1. rewrite Hg2 in Hh2.
    injection Hh1 as <-. injection Hh2 as <-. subst.
    by apply insert_insert_ne.
Qed.

Lemma addToAccumulator_commute_witness :
  and_then (addToAccumulator root_context "a" (JNum 1) pass_start)
           (addToAccumulator root_context "b" JNull) =
  and_then (addToAccumulator root_context "b" JNull pass_start)
           (addToAccumulator root_context "a" (JNum 1)).
Proof.
  apply addToAccumulator_commute. discriminate.
Defined.

Lemma push_wf r v : register_wf r -> register_wf (push r v).
Proof.
  intros [Hlen Hlast]. unfold register_wf, push. cbn [Register.sum Register.value
    Register.currentSum]. split.
  - rewrite !length_app. simpl. lia.
  - apply last_last.
Qed.

(** X13: the registers stay well formed: if every register of the store
    has as many sums as values and [currentSum] equal to its last sum,
    the same holds after a call of [addToAccumulator], and the register
    written has one value and one sum more, the new sum being the old
    [currentSum] plus the number recorded (plus nothing for [null]). *)
Theorem addToAccumulator_invariant (this : context) (name : string) (v : jsval)
    (st st' : store) :
  (forall l n r, register_of st l n = Some r -> register_wf r) ->
  addToAccumulator this name v st = Ok st' ->
  (forall l n r, register_of st' l n = Some r -> register_wf r) /\
  exists r',
    register_of st' (global this) name = Some r' /\
    let r := default Register.empty (register_of st (global this) name) in
    Register.value r' = Register.value r ++ [v] /\
    Register.sum r' = Register.sum r ++ [Register.currentSum r + delta v] /\
    Register.currentSum r' = Register.currentSum r + delta v.
Proof.
  intros Hwf Hadd.
  assert (is_Some (st !! global this) /\
          (inherited name = false \/ is_Some (register_of st (global this) name)))
    as [Hg Hname].
  { destruct (addToAccumulator_inv _ _ _ _ _ Hadd) as (g & t & Hg & -> & Hname & _).
    split; [eauto|]. by rewrite (register_of_table st _ g name Hg). }
  destruct (addToAccumulator_push this name v st Hg Hname) as (st1 & Hadd1 & Hreg).
  rewrite Hadd in Hadd1. injection Hadd1 as <-.
  split.
  - intros l n r Hr.
    destruct (decide ((l, n) = (global this, name))) as [[= -> ->]|Hne].
    + rewrite Hreg in Hr. injection Hr as <-. apply push_wf.
      destruct (register_of st (global this) name) as [r0|] eqn:Hr0; simpl.
      * by eapply Hwf.
      * by split.
    + rewrite (proj1 (addToAccumulator_others this name v st st' Hadd) l n Hne) in Hr.
      by eapply Hwf.
  - eexists. split; [exact Hreg|]. cbv zeta.
    set (r := default Register.empty (register_of st (global this) name)).
    unfold push. cbn [Register.value Register.sum Register.currentSum].
    assert (match v with
            | JNum z => Register.currentSum r + z
            | _ => Register.currentSum r
            end = Register.currentSum r + delta v) as ->.
    { destruct v; simpl; lia. }
    done.
Qed.

Lemma pass_start_no_register l n : register_of pass_start l n = None.
Proof.
  unfold register_of, pass_start.
  destruct (decide (l = 0%nat)) as [->|Hl].
  - by rewrite lookup_singleton_eq.
  - by rewrite lookup_singleton_ne.
Qed.

Lemma addToAccumulator_invariant_witness :
  exists st' r',
    addToAccumulator root_context "offset" (JNum 3) pass_start = Ok st' /\
    register_of st' 0%nat "offset" = Some r' /\
    Register.sum r' = [3].
Proof.
  destruct (addToAccumulator_invariant root_context "offset" (JNum 3) pass_start _
              ltac:(intros l n r; by rewrite pass_start_no_register) eq_refl)
    as (_ & r' & Hreg & _ & Hsum & _).
  eexists _, r'. split; [reflexivity|]. split; [exact Hreg|exact Hsum].
Defined.

(** X14: the registers only grow: after any sequence of calls of
    [addToAccumulator], through any contexts, every register that
    existed still exists, and its old values and sums are the first ones
    of its new lists, unchanged. *)
Theorem record_all_append_only (calls : list (context * jsval)) (name : string)
    (st st' : store) (l : loc) (n : string) (r : Register.t) :
  record_all calls name st = Ok st' ->
  register_of st l n = Some r ->
  exists r',
    register_of st' l n = Some r' /\
    Register.value r `prefix_of` Register.value r' /\
    Register.sum r `prefix_of` Register.sum r'.
Proof.
  revert st r. induction calls as [|[this v] calls IH]; intros st r Hrec Hr.
  - injection Hrec as <-. by exists r.
  - simpl in Hrec.
    destruct (addToAccumulator this name v st) as [st1|] eqn:Hadd; [|done].
    assert (exists r1, register_of st1 l n = Some r1 /\
                       Register.value r `prefix_of` Register.value r1 /\
                       Register.sum r `prefix_of` Register.sum r1) as (r1 & Hr1 & Hv & Hs).
    { destruct (decide ((l, n) = (global this, name))) as [[= -> ->]|Hne].
      - destruct (addToAccumulator_push this name v st) as (st2 & Hadd2 & Hreg).
        { by eapply register_of_Some_global. }
        { right. by rewrite Hr. }
        rewrite Hadd in Hadd2. injection Hadd2 as <-. rewrite Hr in Hreg.
        eexists. split; [exact Hreg|]. split; by apply prefix_app_r.
      - exists r. split; [|done].
        by rewrite (proj1 (addToAccumulator_others this name v st st1 Hadd) l n Hne). }
    destruct (IH st1 r1 Hrec Hr1) as (r' & Hr' & Hv' & Hs').
    exists r'. split; [done|]. split; by etrans.
Qed.

Lemma record_all_append_only_witness :
  exists r',
    register_of offset_recorded 0%nat "offset" = Some r' /\
    [JNum 4] `prefix_of` Register.value r' /\ [4] `prefix_of` Register.sum r'.
Proof.
  apply (record_all_append_only (tail offset_calls) "offset"
           {[ 0%nat := {| accumulators :=
                            Some {[ "offset" := push Register.empty (JNum 4) ]};
                          promises := [] |} ]}
           offset_recorded 0%nat "offset" (push Register.empty (JNum 4)));
    reflexivity.
Defined.

Lemma iterateAccumulator_register this name fn st R :
  register_of st (global this) name = Some R ->
  iterateAccumulator this name fn st = Ok (join (map fn (replay_children this R)), st).
Proof.
  unfold register_of, iterateAccumulator, get_property.
  destruct (st !! global this) as [g|]; [|done].
  destruct (accumulators g) as [table|]; [|done].
  intros ->. by rewrite replay_children_blocks.
Qed.



(** X16: the failures of the accumulator helpers.  [addToAccumulator]
    throws exactly when [this.global] is not an object or the name is
    inherited by the table and has no register; [iterateAccumulator]
    throws exactly when [this.global] is not an object or the table
    exists and the name is inherited by it and has no register; and a
    sequence of calls of [addToAccumulator] throws exactly when one of
    its calls meets one of the two failures in the store it started
    from. *)
Theorem accumulator_failures (this : context) (name : string) (v : jsval)
    (fn : block) (calls : list (context * jsval)) (st : store) :
  (addToAccumulator this name v st = TypeError <->
   st !! global this = None \/
   (inherited name = true /\ register_of st (global this) name = None)) /\
  (iterateAccumulator this name fn st = TypeError <->
   st !! global this = None \/
   (inherited name = true /\
    exists g table, st !! global this = Some g /\ accumulators g = Some table /\
                    table !! name = None)) /\
  (record_all calls name st = TypeError <->
   Exists (fun cv : context * jsval =>
             st !! global cv.1 = None \/
             (inherited name = true /\ register_of st (global cv.1) name = None))
          calls).
Proof.
  split; [apply addToAccumulator_TypeError|]. split.
  - unfold iterateAccumulator, get_property.
    destruct (st !! global this) as [g|]; [|split; [by left|done]].
    destruct (accumulators g) as [table|] eqn:Ha.
    + destruct (table !! name) as [r|] eqn:Hr; [|destruct (inherited name)].
      * split; [done|]. intros [?|[_ (g' & t' & ? & ? & ?)]]; congruence.
      * split; [|done]. intros _. right. split; [done|]. by exists g, table.
      * split; [done|]. intros [?|[? _]]; done.
    + split; [done|]. intros [?|[_ (g' & t' & ? & ? & _)]]; congruence.
  - revert st. induction calls as [|[c w] calls IH]; intros st; simpl.
    + split; [done|]. by intros ?%Exists_nil.
    + rewrite Exists_cons. simpl.
      destruct (addToAccumulator c name w st) as [st1|] eqn:Hadd.
      * rewrite IH.
        assert (forall cv : context * jsval,
                  (st1 !! global cv.1 = None \/
                   (inherited name = true /\ register_of st1 (global cv.1) name = None)) <->
                  (st !! global cv.1 = None \/
                   (inherited name = true /\ register_of st (global cv.1) name = None)))
          as Hsame.
        { intros cv.
          destruct (addToAccumulator_others c name w st st1 Hadd) as (Hreg & _ & Hdom).
          destruct (addToAccumulator_push c name w st) as (st2 & Hadd2 & Hpush).
          { destruct (addToAccumulator_inv _ _ _ _ _ Hadd) as (g & ? & ? & _); eauto. }
          { destruct (addToAccumulator_inv _ _ _ _ _ Hadd) as (g & t & Hg & -> & Hn & _).
            by rewrite (register_of_table st _ g name Hg). }
          rewrite Hadd in Hadd2. injection Hadd2 as <-.
          assert (st1 !! global cv.1 = None <-> st !! global cv.1 = None) as Hd.
          { rewrite !eq_None_not_Some. by rewrite Hdom. }
          destruct (decide (global cv.1 = global c)) as [Heq|Hneq].
          - rewrite Heq in Hd |- *. rewrite Hpush.
            assert (~ (st !! global c = None \/
                       (inherited name = true /\ register_of st (global c) name = None)))
              as Hok.
            { rewrite <- (addToAccumulator_TypeError c name w st). by rewrite Hadd. }
            split.
            + intros [H|[_ H]]; [left; by apply Hd | done].
            + intros H. by destruct Hok.
          - rewrite (Hreg (global cv.1) name) by congruence. by rewrite Hd. }
        assert (~ (st !! global c = None \/
                   (inherited name = true /\ register_of st (global c) name = None)))
          as Hc.
        { rewrite <- (addToAccumulator_TypeError c name w st). by rewrite Hadd. }
        split.
        -- intros H. right. eapply Exists_impl; [exact H|]. intros cv. apply Hsame.
        -- intros [?|H]; [done|]. eapply Exists_impl; [exact H|].
           intros cv. apply Hsame.
      * split; [|done]. intros _. left.
        by apply (proj1 (addToAccumulator_TypeError c name w st)).
Qed.

(** ** The barrier: order and timers *)

Lemma both_left_comm (a b c : settlement) : both a (both b c) = both b (both a c).
Proof.
  destruct a as [t|t|], b as [u|u|], c as [w|w|]; simpl; try done; f_equal; lia.
Qed.

Lemma Promise_all_permutation now (l l' : list settlement) :
  l ≡ₚ l' -> Promise_all now l = Promise_all now l'.
Proof.
  induction 1 as [|a l l' _ IH|a b l|l1 l2 l3 _ IH1 _ IH2]; simpl.
  - done.
  - unfold Promise_all in *. simpl. by rewrite IH.
  - unfold Promise_all. simpl. apply both_left_comm.
  - by rewrite IH1.
Qed.

Lemma polls_permutation (l l' : list nat) :
  l ≡ₚ l' -> foldr Nat.add 0%nat l = foldr Nat.add 0%nat l'.
Proof.
  induction 1 as [|a l l' _ IH|a b l|l1 l2 l3 _ IH1 _ IH2]; simpl; lia.
Qed.

Lemma promiseToResolveAllPreviousPromises_polls timers sch ps now :
  snd (promiseToResolveAllPreviousPromises timers sch ps now) =
  foldr Nat.add 0%nat
    (map (fun p => snd (waitForSynchronousPromise timers sch 100 p now)) ps).
Proof.
  unfold promiseToResolveAllPreviousPromises.
  destruct ps as [|p ps]; [done|].
  change (length (p :: ps) =? 0)%nat with false. cbv iota. cbn [snd].
  by rewrite map_map.
Qed.

(** X17: the order of the pending list does not matter: a barrier called
    on a permutation of the list has the same result, at the same time
    and with the same number of polls. *)
Theorem after_order_independent (timers : nat) (sch : schedule) (this : context)
    (fn : block) (now : nat) (st : store) (g : global_object) (ps : list promise) :
  st !! global this = Some g ->
  promises g ≡ₚ ps ->
  after timers sch this fn now (<[global this := with_promises g ps]> st) =
  after timers sch this fn now st.
Proof.
  intros Hg Hperm.
  rewrite (after_outcome _ _ _ _ _ _ g Hg).
  rewrite (after_outcome _ _ _ _ _ _ (with_promises g ps)) by apply lookup_insert_eq.
  cbn [with_promises promises].
  rewrite !promiseToResolveAllPreviousPromises_settlement,
    !promiseToResolveAllPreviousPromises_polls.
  f_equal. f_equal.
  - f_equal. symmetry. apply Promise_all_permutation. by apply fmap_Permutation.
  - symmetry. apply polls_permutation. by apply fmap_Permutation.
Qed.

Lemma after_order_independent_witness :
  after 5 sample_schedule root_context (fun _ => "done") 0 (pending [1; 0; 2]%nat) =
  after 5 sample_schedule root_context (fun _ => "done") 0 (pending [0; 2; 1]%nat).
Proof.
  assert (pending [1; 0; 2]%nat =
          <[global root_context :=
              with_promises {| accumulators := None; promises := [0; 2; 1]%nat |}
                            [1; 0; 2]%nat]> (pending [0; 2; 1]%nat)) as ->.
  { unfold pending. by rewrite insert_singleton_eq. }
  apply after_order_independent.
  - reflexivity.
  - simpl. etrans; [apply perm_skip, perm_swap | apply perm_swap].
Defined.

Lemma wait_within sch d p timers :
  forall now, within (now + d * timers) (fst (waitForSynchronousPromise timers sch d p now)).
Proof.
  induction timers as [|k IH]; intros now; rewrite wait_step;
    destruct (isResolved (status_at sch now p));
    try (unfold within; simpl; lia);
    destruct (isRejected (status_at sch now p));
    try (unfold within; simpl; lia).
  cbn [fst]. specialize (IH (now + d)%nat). unfold within in *.
  destruct (settled_at _); [lia|done].
Qed.

Lemma wait_from sch d p timers :
  forall now t,
    settled_at (fst (waitForSynchronousPromise timers sch d p now)) = Some t ->
    (now <= t)%nat.
Proof.
  induction timers as [|k IH]; intros now t; rewrite wait_step;
    destruct (isResolved (status_at sch now p));
    try (simpl; intros [= <-]; lia);
    destruct (isRejected (status_at sch now p));
    try (simpl; intros [= <-]; lia); try done.
  cbn [fst]. intros H%IH. lia.
Qed.

(** Running [j] more timers: a poller that had settled is as it was; one
    that had not has polled at least as often, and settles, if it does,
    after the time up to which the first timers ran. *)
Lemma wait_more sch d p j timers :
  (0 < d)%nat ->
  forall now,
    let r := waitForSynchronousPromise timers sch d p now in
    let r' := waitForSynchronousPromise (timers + j) sch d p now in
    later_than (now + d * timers) (fst r) (fst r') /\
    (snd r <= snd r')%nat /\
    (fst r <> Unsettled -> r' = r).
Proof.
  intros Hd. induction timers as [|k IH]; intros now; cbv zeta.
  - rewrite (wait_step 0), (wait_step (0 + j)).
    destruct (isResolved (status_at sch now p)); [by simpl|].
    destruct (isRejected (status_at sch now p)); [by simpl|].
    destruct j as [|j]; [by simpl|]. cbn [Nat.add fst snd later_than].
    split; [|split; [lia|done]].
    destruct (settled_at _) as [t|] eqn:Ht; [|done].
    apply wait_from in Ht. lia.
  - rewrite (wait_step (S k)), (wait_step (S k + j)).
    destruct (isResolved (status_at sch now p)); [by simpl|].
    destruct (isRejected (status_at sch now p)); [by simpl|].
    cbn [Nat.add fst snd]. destruct (IH (now + d)%nat) as (Hl & Hn & He).
    split; [|split; [lia|]].
    + unfold later_than in *.
      destruct (fst (waitForSynchronousPromise k sch d p (now + d))); try done.
      destruct (settled_at _); [lia|done].
    + intros Hs. by rewrite (He Hs).
Qed.

Lemma both_later h a a' b b' :
  within h a -> within h b -> later_than h a a' -> later_than h b b' ->
  within h (both a b) /\ later_than h (both a b) (both a' b').
Proof.
  unfold within, later_than.
  destruct a as [t|t|], b as [u|u|], a' as [t'|t'|], b' as [u'|u'|];
    simpl; intros; simplify_eq; split; try done; try lia; f_equal; lia.
Qed.

Lemma Promise_all_later h now l l' :
  (now <= h)%nat ->
  Forall (within h) l -> Forall2 (later_than h) l l' ->
  within h (Promise_all now l) /\
  later_than h (Promise_all now l) (Promise_all now l').
Proof.
  intros Hnow Hw Hl. induction Hl as [|a a' l l' Ha Hl IH]; simpl.
  - by split.
  - apply Forall_cons in Hw as [Hwa Hw]. destruct (IH Hw) as [IH1 IH2].
    by apply both_later.
Qed.

(** X18: a barrier that has rendered or failed stays so when more timers
    are run: the result and its time do not change, the polls can only
    grow, and for a barrier that has rendered they do not change
    either. *)
Theorem after_more_timers (timers timers' : nat) (sch : schedule) (this : context)
    (fn : block) (now : nat) (st : store) (b : barrier) (polls : nat) :
  after timers sch this fn now st = Ok (b, polls) ->
  b <> Waiting ->
  (timers <= timers')%nat ->
  exists polls',
    after timers' sch this fn now st = Ok (b, polls') /\
    (polls <= polls')%nat /\
    (forall t out, b = Rendered t out -> polls' = polls).
Proof.
  intros Hafter Hb Hle.
  destruct (st !! global this) as [g|] eqn:Hg; cycle 1.
  { unfold after in Hafter. by rewrite Hg in Hafter. }
  replace timers' with (timers + (timers' - timers))%nat by lia.
  rewrite (after_outcome timers _ _ _ _ _ g Hg) in Hafter.
  rewrite (after_outcome (timers + _) _ _ _ _ _ g Hg).
  rewrite promiseToResolveAllPreviousPromises_settlement,
    promiseToResolveAllPreviousPromises_polls in Hafter.
  rewrite promiseToResolveAllPreviousPromises_settlement,
    promiseToResolveAllPreviousPromises_polls.
  injection Hafter as Hbar Hpolls.
  set (j := (timers' - timers)%nat).
  set (w := fun p => waitForSynchronousPromise timers sch 100 p now) in *.
  set (w' := fun p => waitForSynchronousPromise (timers + j) sch 100 p now).
  change (fun p => fst (waitForSynchronousPromise timers sch 100 p now))
    with (fun p => fst (w p)) in Hbar.
  change (fun p => snd (waitForSynchronousPromise timers sch 100 p now))
    with (fun p => snd (w p)) in Hpolls.
  change (fun p => fst (waitForSynchronousPromise (timers + j) sch 100 p now))
    with (fun p => fst (w' p)).
  change (fun p => snd (waitForSynchronousPromise (timers + j) sch 100 p now))
    with (fun p => snd (w' p)).
  assert (forall p, later_than (now + 100 * timers) (fst (w p)) (fst (w' p)) /\
                    (snd (w p) <= snd (w' p))%nat /\
                    (fst (w p) <> Unsettled -> w' p = w p)) as Hmore.
  { intros p. apply (wait_more sch 100 p j timers); lia. }
  destruct (Promise_all_later (now + 100 * timers) now
              (map (fun p => fst (w p)) (promises g))
              (map (fun p => fst (w' p)) (promises g))) as [_ Hlater].
  { lia. }
  { apply Forall_fmap, Forall_forall. intros p _. apply wait_within. }
  { apply Forall2_fmap, Forall_Forall2_diag, Forall_forall. intros p _. apply Hmore. }
  assert (Promise_all now (map (fun p => fst (w' p)) (promises g)) =
          Promise_all now (map (fun p => fst (w p)) (promises g))) as Hsame.
  { unfold later_than in Hlater.
    destruct (Promise_all now (map (fun p => fst (w p)) (promises g))); try done. }
  eexists. split; [by rewrite Hsame, Hbar|]. split.
  - subst polls. clear -Hmore. induction (promises g) as [|p ps IH]; simpl; [done|].
    destruct (Hmore p) as (_ & Hp & _). lia.
  - intros t out ->. subst polls. f_equal. apply map_ext_in. intros p Hp.
    destruct (Promise_all now (map (fun p => fst (w p)) (promises g)))
      as [u|u|] eqn:Hall; try done.
    apply Promise_all_resolved in Hall as [_ Hall].
    destruct (Hall (fst (w p))) as (t' & Hw & _).
    { apply list_elem_of_fmap. exists p. split; [done|]. by apply list_elem_of_In. }
    destruct (Hmore p) as (_ & _ & He). rewrite He; [done|]. by rewrite Hw.
Qed.

Lemma after_more_timers_witness :
  exists polls',
    after 9 sample_schedule root_context (fun _ => "done") 0 (pending [0; 1]%nat) =
    Ok (Rendered 300 "done", polls').
Proof.
  destruct (after_more_timers 5 9 sample_schedule root_context (fun _ => "done") 0
              (pending [0; 1]%nat) (Rendered 300 "done") 6 eq_refl)
    as (polls' & H & _); [done | lia |].
  by exists polls'.
Defined.

(** A poller of a promise that settles at [ts] settles at the first poll
    at or after [ts]: less than one interval later. *)
(** X20: promises that are already fulfilled cost one check each and no
    timer: if every pending promise is fulfilled at the call, the body is
    rendered at the time of the call, with as many polls as there are
    pending promises, however many timers may run. *)
Theorem after_already_fulfilled (timers : nat) (sch : schedule) (this : context)
    (fn : block) (now : nat) (st : store) (g : global_object) :
  st !! global this = Some g ->
  (forall p, p ∈ promises g -> exists ts, sch p = Some (ts, true) /\ (ts <= now)%nat) ->
  after timers sch this fn now st =
  Ok (Rendered now (fn (after_newContext this)), length (promises g)).
Proof.
  intros Hg Hall. rewrite (after_outcome _ _ _ _ _ _ g Hg).
  rewrite promiseToResolveAllPreviousPromises_settlement,
    promiseToResolveAllPreviousPromises_polls.
  assert (forall p, p ∈ promises g ->
            waitForSynchronousPromise timers sch 100 p now = (ResolvedAt now, 1%nat))
    as Hw.
  { intros p Hp. destruct (Hall p Hp) as (ts & Hsch & Hts). rewrite wait_step.
    replace (isResolved (status_at sch now p)) with true; [done|].
    symmetry. apply (proj2 (isResolved_status_at _ _ _)). eauto. }
  clear Hall Hg. induction (promises g) as [|p ps IH]; [done|].
  cbn [map Promise_all foldr length]. rewrite (Hw p) by by left. cbn [fst snd].
  assert (forall q, q ∈ ps ->
            waitForSynchronousPromise timers sch 100 q now = (ResolvedAt now, 1%nat))
    as Hps by (intros q Hq; apply Hw; by right).
  specialize (IH Hps). injection IH as Hb Hn.
  fold (Promise_all now (map (fun p => fst (waitForSynchronousPromise timers sch 100 p now)) ps)).
  destruct (Promise_all now _) as [u|u|]; simpl in Hb; try done.
  injection Hb as ->. rewrite Hn. simpl. by rewrite Nat.max_id.
Qed.

Lemma after_already_fulfilled_witness :
  after 0 sample_schedule root_context (fun _ => "done") 400 (pending [1; 0; 1]%nat) =
  Ok (Rendered 400 "done", 3%nat).
Proof.
  apply (after_already_fulfilled 0 sample_schedule root_context (fun _ => "done") 400
           (pending [1; 0; 1]%nat) _ eq_refl).
  intros p Hp. simpl in Hp. rewrite !elem_of_cons in Hp.
  destruct Hp as [->|[->|[->|Hp]]]; [| | |by apply elem_of_nil in Hp].
  - exists 30%nat. split; [reflexivity|lia].
  - exists 250%nat. split; [reflexivity|lia].
  - exists 30%nat. split; [reflexivity|lia].
Defined.

Lemma wait_polls timers sch d p :
  forall now,
    (1 <= snd (waitForSynchronousPromise timers sch d p now) <= S timers)%nat.
Proof.
  induction timers as [|k IH]; intros now; rewrite wait_step;
    destruct (isResolved (status_at sch now p)); try (simpl; lia);
    destruct (isRejected (status_at sch now p)); try (simpl; lia).
  cbn [snd]. specialize (IH (now + d)%nat). lia.
Qed.

(** X21: every pending promise is checked at least once and at most once
    more than the timers that run: the polls of a barrier lie between the
    length of the pending list and that length times [timers + 1]. *)
Theorem after_polls_bounds (timers : nat) (sch : schedule) (this : context)
    (fn : block) (now : nat) (st : store) (g : global_object) (b : barrier)
    (polls : nat) :
  st !! global this = Some g ->
  after timers sch this fn now st = Ok (b, polls) ->
  (length (promises g) <= polls <= length (promises g) * S timers)%nat.
Proof.
  intros Hg. rewrite (after_outcome _ _ _ _ _ _ g Hg).
  rewrite promiseToResolveAllPreviousPromises_polls. intros [= _ <-].
  induction (promises g) as [|p ps IH]; simpl; [lia|].
  pose proof (wait_polls timers sch 100 p now). lia.
Qed.

Lemma after_polls_bounds_witness :
  (2 <= 6 <= 2 * 6)%nat.
Proof.
  exact (after_polls_bounds 5 sample_schedule root_context (fun _ => "done") 0
           (pending [0; 1]%nat) _ (Rendered 300 "done") 6 eq_refl eq_refl).
Defined.

Lemma positional_at (c : context) (fn : block) (k len : nat) :
  index c = JNum (Z.of_nat k) -> count c = JNum (Z.of_nat len) ->
  (first c fn = Some (fn c) <-> k = 0%nat) /\
  (last c fn = Some (fn c) <-> S k = len) /\
  (not_last c fn = Some (fn c) <-> S k <> len) /\
  (middle c fn = Some (fn c) <-> k <> 0%nat /\ S k <> len).
Proof.
  intros Hi Hc. unfold first, last, not_last, middle, js_minus. rewrite Hi, Hc.
  cbn [not_null andb ToNumber loose_eq_number].
  destruct (Z.eqb_spec (Z.of_nat k) 0), (Z.eqb_spec (Z.of_nat k) (Z.of_nat len - 1));
    cbn [negb andb]; repeat split; try done; try lia; intros; try lia; try done.
  all: try (destruct H; lia).
Qed.

(** X24: the contexts of both loops are numbered as the positional
    helpers expect.  The [k]-th context that [iterate] (with a count that
    is a natural number) or [iterateAccumulator] builds has [index = k]
    and the number of contexts as [count]; in it [first] renders exactly
    for [k = 0], [last] exactly for the last context, [not_last] for all
    others, and [middle] for those that are neither first nor last. *)
Theorem loop_contexts_positions (this : context) (n : nat) (acc : Register.t)
    (cs : list context) (k : nat) (c : context) (fn : block) :
  cs = iterate_children this (JNum (Z.of_nat n)) \/ cs = replay_children this acc ->
  cs !! k = Some c ->
  index c = JNum (Z.of_nat k) /\
  count c = JNum (Z.of_nat (length cs)) /\
  (first c fn = Some (fn c) <-> k = 0%nat) /\
  (last c fn = Some (fn c) <-> S k = length cs) /\
  (not_last c fn = Some (fn c) <-> S k <> length cs) /\
  (middle c fn = Some (fn c) <-> k <> 0%nat /\ S k <> length cs).
Proof.
  intros Hcs Hk.
  assert (index c = JNum (Z.of_nat k) /\ count c = JNum (Z.of_nat (length cs)))
    as [Hi Hc].
  { destruct Hcs as [-> | ->].
    - rewrite iterate_children_nat in Hk |- *. rewrite length_map, length_seq.
      rewrite list_lookup_fmap in Hk.
      destruct (seq 0 n !! k) as [j|] eqn:Hj; [|done].
      apply lookup_seq in Hj as [-> _]. by injection Hk as <-.
    - unfold replay_children in Hk |- *. rewrite length_map, length_seq.
      rewrite list_lookup_fmap in Hk.
      destruct (seq 0 (length (Register.value acc)) !! k) as [j|] eqn:Hj; [|done].
      apply lookup_seq in Hj as [-> _]. by injection Hk as <-. }
  split; [done|]. split; [done|]. by apply positional_at.
Qed.

Lemma loop_contexts_positions_witness :
  last (iterate_newContext root_context (JNum 3) 2) show_sum =
  Some (show_sum (iterate_newContext root_context (JNum 3) 2)).
Proof.
  destruct (loop_contexts_positions root_context 3 Register.empty
              (iterate_children root_context (JNum 3)) 2
              (iterate_newContext root_context (JNum 3) 2) show_sum)
    as (_ & _ & _ & Hlast & _).
  - by left.
  - reflexivity.
  - apply Hlast. reflexivity.
Defined.
